(** * wuapi-essential: the schema object model of [src/index.ts]

    A shallow embedding of the classes [$ElementPath], [$EnumItem], [$Enum],
    [$FieldType], [$Field], [$Entity], [$Module] and [$Project], of their
    queries and of their [load] functions, followed by the properties the
    specification states about them.

    Conventions of the embedding.

    - [null] and [undefined] are both [None]: the code only ever tells them
      from other values with [!x], [x == null], [?.], [??] and [notNU], none
      of which separates the two.
    - A JavaScript object used as a dictionary ([{[key: string]: V}]) is the
      list of its own enumerable properties in [for ... in] order, type
      [obj V]; its prototype is [Object.prototype].  An object has one
      property per key; where a proof needs it, that is the hypothesis
      [NoDup (keys o)].  Inside a [for ... in] loop over [o] the read
      [o[key]] finds the own property ([get]); a read with a key that comes
      from elsewhere goes on to [Object.prototype] ([read]).  An assignment
      [o[k] = v] puts an array index before the other keys, and with the
      key ["__proto__"] it replaces the prototype instead of adding a
      property ([set]); a value built that way is marked [Polluted], and
      what its dictionaries inherit from the new prototype is not modelled.
    - A [number] that the code treats as an identifier (an enum item value,
      an enum-as-number) is a [Z].
    - An exception is the outcome [Throw]; recursion through a project, which
      the code does not bound, takes fuel and answers [None] when it runs out. *)

From Stdlib Require Import List String Ascii Bool NArith ZArith Lia Arith.
Import ListNotations.
Open Scope string_scope.
Open Scope list_scope.

Set Implicit Arguments.
Set Warnings "-register-all".

(* ================================================================= *)
(** ** JavaScript objects used as dictionaries *)

Definition obj (V : Type) := list (string * V).

Definition keys {V} (o : obj V) : list string := map fst o.

(** [o[k]] *)
Fixpoint get {V} (o : obj V) (k : string) : option V :=
  match o with
  | [] => None
  | (k', v) :: r => if String.eqb k k' then Some v else get r k
  end.

(** The names of the members of [Object.prototype] (ECMAScript with its
    Annex B, as in Node.js and in browsers): what an object literal
    inherits.  All of them are functions, but [__proto__], an accessor that
    gives [Object.prototype] itself. *)
Definition object_prototype : list string :=
  ["constructor"; "__defineGetter__"; "__defineSetter__"; "hasOwnProperty";
   "__lookupGetter__"; "__lookupSetter__"; "isPrototypeOf";
   "propertyIsEnumerable"; "toString"; "valueOf"; "__proto__";
   "toLocaleString"].

Definition inherited (k : string) : bool :=
  existsb (String.eqb k) object_prototype.

(** What a read finds under a key: a property of the object itself, or the
    member of [Object.prototype] of that name. *)
Inductive slot (V : Type) :=
| Own (v : V)
| Inherited (k : string).
Arguments Own {V} v.
Arguments Inherited {V} k.

(** [o[k]] for a key [k] that comes from outside the object: the own
    property, else the inherited member, else [undefined]. *)
Definition read {V} (o : obj V) (k : string) : option (slot V) :=
  match get o k with
  | Some v => Some (Own v)
  | None => if inherited k then Some (Inherited k) else None
  end.

(** A key that is an array index: the canonical decimal form of an integer
    from 0 to 2^32 - 2.  Own property keys are enumerated with the array
    indices first, in ascending order, then the other strings in the order
    of their creation. *)
Definition digit (c : ascii) : option N :=
  let n := N_of_ascii c in
  if (48 <=? n)%N && (n <=? 57)%N then Some (n - 48)%N else None.

Fixpoint digits (s : string) (acc : N) : option N :=
  match s with
  | EmptyString => Some acc
  | String c r =>
      match digit c with
      | Some d => digits r (10 * acc + d)%N
      | None => None
      end
  end.

Definition array_index (k : string) : option N :=
  match k with
  | EmptyString => None
  | String c r =>
      if Ascii.eqb c "0"%char
      then match r with EmptyString => Some 0%N | _ => None end
      else match digits k 0%N with
           | Some n => if (n <=? 4294967294)%N then Some n else None
           | None => None
           end
  end.

(** An existing property takes the new value and keeps its place. *)
Fixpoint replace {V} (o : obj V) (k : string) (v : V) : obj V :=
  match o with
  | [] => []
  | (k', v') :: r =>
      if String.eqb k k' then (k', v) :: r else (k', v') :: replace r k v
  end.

(** A new property whose key is the array index [n] goes before the first
    property that is not an array index or is a larger one. *)
Fixpoint insert_index {V} (o : obj V) (n : N) (k : string) (v : V) : obj V :=
  match o with
  | [] => [(k, v)]
  | (k', v') :: r =>
      match array_index k' with
      | Some n' =>
          if (n <? n')%N then (k, v) :: o
          else (k', v') :: insert_index r n k v
      | None => (k, v) :: o
      end
  end.

(** The own properties after [o[k] = v], for a key other than a
    ["__proto__"] that the object does not have. *)
Definition put {V} (o : obj V) (k : string) (v : V) : obj V :=
  match get o k with
  | Some _ => replace o k v
  | None =>
      match array_index k with
      | Some n => insert_index o n k v
      | None => o ++ [(k, v)]
      end
  end.

(** The effect of [o[k] = v] for an object [v]: a property of [o], or, with
    the key ["__proto__"] that [o] does not have itself, the setter of
    [Object.prototype], which makes [v] the prototype of [o] and leaves the
    properties of [o] as they are. *)
Inductive written (V : Type) :=
| Property (o : obj V)
| Prototype (o : obj V) (proto : V).
Arguments Property {V} o.
Arguments Prototype {V} o proto.

(** [o[k] = v] *)
Definition set {V} (o : obj V) (k : string) (v : V) : written V :=
  match get o k with
  | Some _ => Property (put o k v)
  | None =>
      if String.eqb k "__proto__" then Prototype o v
      else Property (put o k v)
  end.

(** [forIn(o, cb)] of util.ts: [for(let key in o){ cb(o[key], key) }], the
    callback acting on a state [S]. *)
Definition forIn {V S} (o : obj V) (cb : V -> string -> S -> S) (s : S) : S :=
  fold_left
    (fun s key => match get o key with Some v => cb v key s | None => s end)
    (keys o) s.

(** What [notNU] sees of one argument. *)
Inductive any := Nullish | Present.

Definition observe {A} (x : option A) : any :=
  match x with None => Nullish | Some _ => Present end.

(** [notNU(...args)]: true if ALL objects are neither null, nor undefined. *)
Fixpoint notNU (args : list any) : bool :=
  match args with
  | [] => true
  | Nullish :: _ => false
  | Present :: r => notNU r
  end.

(** [a ?? b] *)
Definition coalesce {A} (a : option A) (b : A) : A :=
  match a with Some x => x | None => b end.

(** Outcome of a call: it returns [a], or it throws, or it returns [a] after
    an assignment [dst["__proto__"] = x] has replaced the prototype of a
    dictionary inside [a].  In the last case [a] has the own properties of
    its dictionaries, and nothing is said of what they inherit. *)
Inductive res (A : Type) :=
| Ret (a : A)
| Throw (msg : string)
| Polluted (a : A).
Arguments Ret {A} a.
Arguments Throw {A} msg.
Arguments Polluted {A} a.

(** The mark stays on whatever is built from a marked value. *)
Definition pollute {A} (m : res A) : res A :=
  match m with
  | Ret a => Polluted a
  | other => other
  end.

Definition bind {A B} (m : res A) (f : A -> res B) : res B :=
  match m with
  | Ret a => f a
  | Throw msg => Throw msg
  | Polluted a => pollute (f a)
  end.

(** The call returns [a]. *)
Definition returns {A} (m : res A) (a : A) : Prop :=
  m = Ret a \/ m = Polluted a.

Notation "x <- m ;; k" := (bind m (fun x => k))
  (at level 61, m at next level, right associativity).

(** Reading a property of [null] or [undefined]. *)
Definition TypeError : string := "TypeError".

(* ================================================================= *)
(** ** The object model *)

(** Values that [load] copies without looking at them ([fixedValue: any]). *)
Inductive json :=
| JNull
| JBool (b : bool)
| JNum (z : Z)
| JStr (s : string)
| JArr (l : list json)
| JObj (l : list (string * json)).

(** [$Commentable]: [comment] and [config], inlined in each record below. *)

(** [enum $ReqMethod], a TypeScript numeric enum. *)
Definition ReqMethod := Z.
Definition GET : ReqMethod := 0%Z.
Definition HEAD : ReqMethod := 1%Z.
Definition POST : ReqMethod := 2%Z.
Definition PUT : ReqMethod := 3%Z.
Definition DELETE : ReqMethod := 4%Z.
Definition CONNECT : ReqMethod := 5%Z.
Definition OPTIONS : ReqMethod := 6%Z.
Definition TRACE : ReqMethod := 7%Z.
Definition PATCH : ReqMethod := 8%Z.
Definition SOCKET : ReqMethod := 9%Z.
Definition MQTT : ReqMethod := 10%Z.

(** [enum $EntityType] *)
Definition EntityType := Z.
Definition OBJECT : EntityType := 0%Z.
Definition REQUEST : EntityType := 1%Z.
Definition RESPONSE : EntityType := 2%Z.

(** [class $ElementPath] *)
Record ElementPath := mkElementPath {
  module : option string;
  name : option string
}.

(** [class $EnumItem] *)
Record EnumItem := mkEnumItem {
  value : Z;
  item_comment : string;
  item_config : option (obj string);
  item_realname : option string
}.

(** [class $Enum] *)
Record Enum := mkEnum {
  enum_comment : string;
  enum_config : option (obj string);
  enumMap : obj EnumItem
}.

(** [class $FieldType] and its thirteen subclasses. *)
Inductive FieldType :=
| TObject (entity : ElementPath)
| TEnum (enu : ElementPath)
| TList (member : FieldType)
| TUnknown (unknown : string)
| TInteger
| TLong
| TDouble
| TID
| TURL
| TDateTime
| TBoolean
| TString
| TSSMap.

(** The [type] property, set by each subclass constructor. *)
Definition type_of (t : FieldType) : string :=
  match t with
  | TObject _ => "TObject"
  | TEnum _ => "TEnum"
  | TList _ => "TList"
  | TUnknown _ => "TUnknown"
  | TInteger => "TInteger"
  | TLong => "TLong"
  | TDouble => "TDouble"
  | TID => "TID"
  | TURL => "TURL"
  | TDateTime => "TDateTime"
  | TBoolean => "TBoolean"
  | TString => "TString"
  | TSSMap => "TSSMap"
  end.

(** [(t as $TObject).entity] and the like: the property if the object has it. *)
Definition entity_of (t : FieldType) : option ElementPath :=
  match t with TObject p => Some p | _ => None end.
Definition enu_of (t : FieldType) : option ElementPath :=
  match t with TEnum p => Some p | _ => None end.
Definition member_of (t : FieldType) : option FieldType :=
  match t with TList m => Some m | _ => None end.
Definition unknown_of (t : FieldType) : option string :=
  match t with TUnknown s => Some s | _ => None end.

(** [class $Field] *)
Record Field := mkField {
  field_comment : string;
  field_config : option (obj string);
  field_realname : option string;
  isOptional : bool;
  isPathParameter : bool;
  fixedValue : option json;
  field_type : FieldType
}.

(** [class $Entity] *)
Record Entity := mkEntity {
  entity_type : EntityType;
  entity_comment : string;
  entity_config : option (obj string);
  isAbstract : bool;
  parent : option ElementPath;
  response : option ElementPath;
  path : option string;
  method : option ReqMethod;
  fieldsLocal : obj Field;
  genericMap : obj Field
}.

(** [class $Module] *)
Record Module_ := mkModule {
  entities : obj Entity;
  enums : obj Enum
}.

(** [class $Project] *)
Record Project := mkProject {
  project_name : string;
  version : string;
  targetPackage : string;
  modules : obj Module_
}.

(* ================================================================= *)
(** ** [$ElementPath] *)

(** [a == b] on [string | null]. *)
Definition loose_eq (a b : option string) : bool :=
  match a, b with
  | None, None => true
  | Some x, Some y => String.eqb x y
  | _, _ => false
  end.

(** [equals(another)] *)
Definition ElementPath_equals
  (this : ElementPath) (another : option ElementPath) : bool :=
  match another with
  | None => false
  | Some another =>
      loose_eq (module another) (module this)
      && loose_eq (name another) (name this)
  end.

(** [asEntityOf(project)]:
    [project.modules[this.module]?.entities[this.name] ?? null].  When
    [modules[this.module]] is an inherited member, it is not nullish, its
    [entities] is [undefined], and the read of [[this.name]] throws.  When
    [entities[this.name]] is an inherited member, that member is returned. *)
Definition asEntityOf (this : ElementPath) (project : option Project)
  : res (option (slot Entity)) :=
  match project with
  | None => Ret None
  | Some project =>
      match module this, name this with
      | Some m, Some n =>
          match read (modules project) m with
          | None => Ret None
          | Some (Own mo) => Ret (read (entities mo) n)
          | Some (Inherited _) => Throw TypeError
          end
      | _, _ => Ret None
      end
  end.

(** [asEnumOf(project)] *)
Definition asEnumOf (this : ElementPath) (project : option Project)
  : res (option (slot Enum)) :=
  match project with
  | None => Ret None
  | Some project =>
      match module this, name this with
      | Some m, Some n =>
          match read (modules project) m with
          | None => Ret None
          | Some (Own mo) => Ret (read (enums mo) n)
          | Some (Inherited _) => Throw TypeError
          end
      | _, _ => Ret None
      end
  end.

(* ================================================================= *)
(** ** [$Enum] *)

(** One turn of the loop of [firstName]; the state is [(i, k)]. *)
Definition firstName_step (this : Enum)
  (st : option Z * option string) (key : string) : option Z * option string :=
  match get (enumMap this) key with
  | None => st (* not reached: [key] is a key of [enumMap] *)
  | Some item =>
      let smaller :=
        match fst st with
        | None => true                       (* i == null *)
        | Some i => (value item <? i)%Z      (* item.value < i *)
        end in
      if smaller then (Some (value item), Some key) else st
  end.

(** [firstName()] *)
Definition firstName (this : Enum) : option string :=
  snd (fold_left (firstName_step this) (keys (enumMap this)) (None, None)).

(** [first()] *)
Definition first (this : Enum) : option EnumItem :=
  match firstName this with
  | None => None
  | Some k => get (enumMap this) k
  end.

(** [flat()] *)
Definition Enum_flat (this : Enum) : list (string * EnumItem) :=
  forIn (enumMap this) (fun item name result => result ++ [(name, item)]) [].

(* ================================================================= *)
(** ** [$FieldType] *)

(** [equals(another)].  The [switch(this.type)] is the match on [this]; the
    payload of [another] is read through the unchecked casts. *)
Fixpoint FieldType_equals (this : FieldType) (another : option FieldType)
  : bool :=
  match another with
  | None => false
  | Some another =>
      if negb (String.eqb (type_of another) (type_of this)) then false
      else
        match this with
        | TObject entity => ElementPath_equals entity (entity_of another)
        | TEnum enu => ElementPath_equals enu (enu_of another)
        | TUnknown unknown =>
            match unknown_of another with
            | Some u => String.eqb unknown u
            | None => false
            end
        | TList member => FieldType_equals member (member_of another)
        | _ => true
        end
  end.

Definition usage_error : string := "List field shall not use quealsInList!".

(** [equalsEvenInList(another)], for [another] that is not null. *)
Fixpoint equalsEvenInList_at (this another : FieldType) : res bool :=
  if String.eqb (type_of this) "TList" then Throw usage_error
  else
    match another with
    | TList member => equalsEvenInList_at this member
    | _ => Ret (FieldType_equals this (Some another))
    end.

(** [equalsEvenInList(another)] *)
Definition equalsEvenInList (this : FieldType) (another : option FieldType)
  : res bool :=
  if String.eqb (type_of this) "TList" then Throw usage_error
  else if negb (notNU [observe another]) then Ret false
  else
    match another with
    | None => Ret false
    | Some another => equalsEvenInList_at this another
    end.

(* ================================================================= *)
(** ** [$Entity] *)

(** [getGenericLocal()] *)
Definition getGenericLocal (this : Entity) : list string :=
  fold_left
    (fun result k =>
       match get (fieldsLocal this) k with
       | None => result (* not reached: [k] is a key of [fieldsLocal] *)
       | Some field =>
           if String.eqb (type_of (field_type field)) "TUnknown"
           then match unknown_of (field_type field) with
                | Some u => result ++ [u]
                | None => result
                end
           else result
       end)
    (keys (fieldsLocal this)) [].

(** [this.parent?.asEntityOf(project)] *)
Definition parentEntity (this : Entity) (project : option Project)
  : res (option (slot Entity)) :=
  match parent this with
  | None => Ret None
  | Some p => asEntityOf p project
  end.

(** [!this.genericMap[o]]: a [$Field] is an object and the members of
    [Object.prototype] are functions or objects, all truthy. *)
Definition unsolved_here (this : Entity) (o : string) : bool :=
  match read (genericMap this) o with
  | Some _ => false
  | None => true
  end.

(** [getGenericUnsolved(project)].  [fuel] bounds the depth of the calls on
    parents; [None] is a recursion that did not end within it.  A parent
    that is an inherited member has no [getGenericUnsolved]: the call of
    [undefined] throws. *)
Fixpoint getGenericUnsolved (fuel : nat) (this : Entity)
  (project : option Project) : option (res (list string)) :=
  match project with
  | None => Some (Ret [])
  | Some _ =>
      let pg :=
        match parentEntity this project with
        | Throw msg => Some (Throw msg)
        | Ret None | Polluted None => Some (Ret [])
        | Ret (Some (Inherited _)) | Polluted (Some (Inherited _)) =>
            Some (Throw TypeError)
        | Ret (Some (Own p)) | Polluted (Some (Own p)) =>
            match fuel with
            | O => None
            | S fuel' => getGenericUnsolved fuel' p project
            end
        end in
      match pg with
      | None => None
      | Some pg =>
          Some (pg <- pg ;;
                Ret (filter (unsolved_here this) (pg ++ getGenericLocal this)))
      end
  end.

(** [fromAncestorToMe(project, block)].  The callback acts on a state [S];
    [fuel] as above.  Every parent is resolved before the first call of
    [block], so an exception leaves no entity visited. *)
Fixpoint fromAncestorToMe {S} (fuel : nat) (this : Entity) (project : Project)
  (block : Entity -> S -> S) (s : S) : option (res S) :=
  let walked :=
    match parentEntity this (Some project) with
    | Throw msg => Some (Throw msg)
    | Ret None | Polluted None => Some (Ret s)
    | Ret (Some (Inherited _)) | Polluted (Some (Inherited _)) =>
        Some (Throw TypeError)
    | Ret (Some (Own p)) | Polluted (Some (Own p)) =>
        match fuel with
        | O => None
        | S fuel' => fromAncestorToMe fuel' p project block s
        end
    end in
  match walked with
  | None => None
  | Some walked => Some (s' <- walked ;; Ret (block this s'))
  end.

(* ================================================================= *)
(** ** [$Project] *)

(** [flatEntities()] *)
Definition flatEntities (this : Project) : list (ElementPath * Entity) :=
  forIn (modules this)
    (fun moduleInstance module result =>
       forIn (entities moduleInstance)
         (fun entityInstance name result =>
            result ++ [(mkElementPath (Some module) (Some name),
                        entityInstance)])
         result)
    [].

(** [flatEnums()] *)
Definition flatEnums (this : Project) : list (ElementPath * Enum) :=
  forIn (modules this)
    (fun moduleInstance module result =>
       forIn (enums moduleInstance)
         (fun enumInstance name result =>
            result ++ [(mkElementPath (Some module) (Some name),
                        enumInstance)])
         result)
    [].

(* ================================================================= *)
(** ** Documents

    [load] takes [data: any].  A document here is a JSON value of the shape
    the loaders read, in which every property may be missing or [null]
    ([None]) and every entry of a collection may be [null]. *)

Record ElementPathDoc := mkElementPathDoc {
  dp_module : option string;
  dp_name : option string
}.

Record EnumItemDoc := mkEnumItemDoc {
  di_value : option Z;
  di_comment : option string;
  di_config : option (obj string);
  di_realname : option string
}.

Record EnumDoc := mkEnumDoc {
  dn_enumMap : option (obj (option EnumItemDoc));
  dn_comment : option string;
  dn_config : option (obj string)
}.

Inductive FieldTypeDoc :=
| mkFieldTypeDoc
    (dt_type : option string)
    (dt_entity : option ElementPathDoc)
    (dt_enu : option ElementPathDoc)
    (dt_member : option FieldTypeDoc)
    (dt_unknown : option string).

Record FieldDoc := mkFieldDoc {
  df_type : option FieldTypeDoc;
  df_isOptional : option bool;
  df_isPathParameter : option bool;
  df_comment : option string;
  df_config : option (obj string);
  df_realname : option string;
  df_fixedValue : option json
}.

Record EntityDoc := mkEntityDoc {
  de_type : option Z;
  de_isAbstract : option bool;
  de_fieldsLocal : option (obj (option FieldDoc));
  de_genericMap : option (obj (option FieldDoc));
  de_comment : option string;
  de_config : option (obj string);
  de_path : option string;
  de_method : option Z;
  de_parent : option ElementPathDoc;
  de_response : option ElementPathDoc
}.

Record ModuleDoc := mkModuleDoc {
  dm_entities : option (obj (option EntityDoc));
  dm_enums : option (obj (option EnumDoc))
}.

Record ProjectDoc := mkProjectDoc {
  dj_name : option string;
  dj_version : option string;
  dj_targetPackage : option string;
  dj_modules : option (obj (option ModuleDoc))
}.

(** [data.x] needs [data] itself: on [null] or [undefined] it throws. *)
Definition deref {A} (data : option A) : res A :=
  match data with
  | Some d => Ret d
  | None => Throw TypeError
  end.

(** [src[i]] for a key [i], where the entry itself may be [null]. *)
Definition entry {D} (src : obj (option D)) (i : string) : option D :=
  match get src i with
  | Some e => e
  | None => None
  end.

(** One turn of the loop every loader runs over a collection:
    [const x = load(src[i]); if(notNU(x)){ dst[i] = x! }] *)
Definition load_step {D N} (load : option D -> res (option N))
  (src : obj (option D)) (acc : res (obj N)) (i : string) : res (obj N) :=
  dst <- acc ;;
  x <- load (entry src i) ;;
  if notNU [observe x]
  then match x with
       | Some node =>
           match set dst i node with
           | Property dst' => Ret dst'
           | Prototype dst' _ => Polluted dst'
           end
       | None => Ret dst (* not reached *)
       end
  else Ret dst.

(** The loop: [for(let i in src){ ... }] *)
Definition load_each {D N} (load : option D -> res (option N))
  (src : obj (option D)) (dst : obj N) : res (obj N) :=
  fold_left (load_step load src) (keys src) (Ret dst).

(** [$ElementPath.load(data)] *)
Definition ElementPath_load (data : option ElementPathDoc) : res ElementPath :=
  d <- deref data ;;
  Ret (mkElementPath
         (match dp_module d with Some m => Some m | None => None end)
         (match dp_name d with Some n => Some n | None => None end)).

(** [$EnumItem.load(data)] *)
Definition EnumItem_load (data : option EnumItemDoc) : res (option EnumItem) :=
  d <- deref data ;;
  if negb (notNU [observe (di_value d)]) then Ret None
  else
    match di_value d with
    | Some value =>
        Ret (Some (mkEnumItem value (coalesce (di_comment d) "")
                     (di_config d) (di_realname d)))
    | None => Ret None (* not reached *)
    end.

(** [$Enum.load(data)] *)
Definition Enum_load (data : option EnumDoc) : res (option Enum) :=
  d <- deref data ;;
  if negb (notNU [observe (dn_enumMap d)]) then Ret None
  else
    match dn_enumMap d with
    | Some src =>
        enumMap <- load_each EnumItem_load src [] ;;
        Ret (Some (mkEnum (coalesce (dn_comment d) "") (dn_config d) enumMap))
    | None => Ret None (* not reached *)
    end.

(** [$FieldType.load(data)], for [data] that is not null. *)
Fixpoint FieldType_load_at (d : FieldTypeDoc) : res (option FieldType) :=
  match d with
  | mkFieldTypeDoc dt_type dt_entity dt_enu dt_member dt_unknown =>
      match dt_type with
      | None => Ret None (* !notNU(data.type) *)
      | Some type =>
          if String.eqb type "TInteger" then Ret (Some TInteger)
          else if String.eqb type "TLong" then Ret (Some TLong)
          else if String.eqb type "TDouble" then Ret (Some TDouble)
          else if String.eqb type "TID" then Ret (Some TID)
          else if String.eqb type "TURL" then Ret (Some TURL)
          else if String.eqb type "TDateTime" then Ret (Some TDateTime)
          else if String.eqb type "TBoolean" then Ret (Some TBoolean)
          else if String.eqb type "TString" then Ret (Some TString)
          else if String.eqb type "TSSMap" then Ret (Some TSSMap)
          else if String.eqb type "TObject" then
            if negb (notNU [observe dt_entity]) then Ret None
            else
              path <- ElementPath_load dt_entity ;;
              if negb (notNU [observe (Some path)]) then Ret None
              else Ret (Some (TObject path))
          else if String.eqb type "TEnum" then
            if negb (notNU [observe dt_enu]) then Ret None
            else
              path <- ElementPath_load dt_enu ;;
              if negb (notNU [observe (Some path)]) then Ret None
              else Ret (Some (TEnum path))
          else if String.eqb type "TList" then
            match dt_member with
            | None => Ret None (* !notNU(data.member) *)
            | Some m =>
                member <- FieldType_load_at m ;;
                if negb (notNU [observe member]) then Ret None
                else
                  match member with
                  | Some member => Ret (Some (TList member))
                  | None => Ret None (* not reached *)
                  end
            end
          else if String.eqb type "TUnknown" then
            match dt_unknown with
            | None => Ret None (* !notNU(data.unknown) *)
            | Some unknown => Ret (Some (TUnknown unknown))
            end
          else Ret None
      end
  end.

(** [$FieldType.load(data)] *)
Definition FieldType_load (data : option FieldTypeDoc)
  : res (option FieldType) :=
  d <- deref data ;;
  FieldType_load_at d.

(** [$Field.load(data)] *)
Definition Field_load (data : option FieldDoc) : res (option Field) :=
  d <- deref data ;;
  if negb (notNU [observe (df_type d); observe (df_isOptional d);
                  observe (df_isPathParameter d)])
  then Ret None
  else
    filedType <- FieldType_load (df_type d) ;;
    if negb (notNU [observe filedType]) then Ret None
    else
      match filedType, df_isOptional d, df_isPathParameter d with
      | Some filedType, Some isOptional, Some isPathParameter =>
          Ret (Some (mkField (coalesce (df_comment d) "") (df_config d)
                       (df_realname d) isOptional isPathParameter
                       (df_fixedValue d) filedType))
      | _, _, _ => Ret None (* not reached *)
      end.

(** [if(notNU(data.parent)){ entity.parent = $ElementPath.load(data.parent) }],
    the property being [null] before. *)
Definition load_path_if_present (data : option ElementPathDoc)
  : res (option ElementPath) :=
  if notNU [observe data]
  then p <- ElementPath_load data ;; Ret (Some p)
  else Ret None.

(** [$Entity.load(data)] *)
Definition Entity_load (data : option EntityDoc) : res (option Entity) :=
  d <- deref data ;;
  if negb (notNU [observe (de_type d); observe (de_isAbstract d);
                  observe (de_fieldsLocal d); observe (de_genericMap d)])
  then Ret None
  else
    match de_type d, de_isAbstract d, de_fieldsLocal d, de_genericMap d with
    | Some type, Some isAbstract, Some fl, Some gm =>
        parent <- load_path_if_present (de_parent d) ;;
        response <- load_path_if_present (de_response d) ;;
        fieldsLocal <- load_each Field_load fl [] ;;
        genericMap <- load_each Field_load gm [] ;;
        Ret (Some (mkEntity type (coalesce (de_comment d) "") (de_config d)
                     isAbstract parent response (de_path d) (de_method d)
                     fieldsLocal genericMap))
    | _, _, _, _ => Ret None (* not reached *)
    end.

(** [$Module.load(data)] *)
Definition Module_load (data : option ModuleDoc) : res (option Module_) :=
  d <- deref data ;;
  if negb (notNU [observe (dm_entities d); observe (dm_enums d)])
  then Ret None
  else
    match dm_entities d, dm_enums d with
    | Some es, Some ns =>
        entities <- load_each Entity_load es [] ;;
        enums <- load_each Enum_load ns [] ;;
        Ret (Some (mkModule entities enums))
    | _, _ => Ret None (* not reached *)
    end.

(** [$Project.load(data)] *)
Definition Project_load (data : option ProjectDoc) : res (option Project) :=
  d <- deref data ;;
  if negb (notNU [observe (dj_name d); observe (dj_version d);
                  observe (dj_targetPackage d); observe (dj_modules d)])
  then Ret None
  else
    match dj_name d, dj_version d, dj_targetPackage d, dj_modules d with
    | Some name, Some version, Some targetPackage, Some ms =>
        modules <- load_each Module_load ms [] ;;
        Ret (Some (mkProject name version targetPackage modules))
    | _, _, _, _ => Ret None (* not reached *)
    end.

(* ================================================================= *)
(** ** Notions the specification uses to describe the code *)

(** [other] with every enclosing [TList] taken off. *)
Fixpoint strip_lists (other : FieldType) : FieldType :=
  match other with
  | TList member => strip_lists member
  | _ => other
  end.

(** The nine variants without payload. *)
Definition payload_free (t : FieldType) : bool :=
  match t with
  | TObject _ | TEnum _ | TList _ | TUnknown _ => false
  | _ => true
  end.

(** What is stored in [P] under the module key [m] and, in the dictionary
    [sel] of that module, under the key [n]. *)
Definition stored {V} (sel : Module_ -> obj V) (P : Project)
  (m n : string) (v : V) : Prop :=
  exists mo, In (m, mo) (modules P) /\ In (n, v) (sel mo).

(** A dictionary has nothing under [k], neither of its own nor inherited. *)
Definition absent {V} (o : obj V) (k : string) : Prop :=
  ~ In k (keys o) /\ ~ In k object_prototype.

(** The path designates nothing in [P]: a coordinate is null, or the project
    has nothing under the module key, or the module has nothing under the
    name. *)
Definition dangling {V} (sel : Module_ -> obj V) (P : Project)
  (p : ElementPath) : Prop :=
  module p = None \/ name p = None
  \/ (exists m, module p = Some m /\ absent (modules P) m)
  \/ (exists m n mo, module p = Some m /\ name p = Some n
                      /\ In (m, mo) (modules P) /\ absent (sel mo) n).

(** [E] has no parent in [P]: no parent path, or one that designates
    nothing. *)
Definition is_root (P : Project) (E : Entity) : Prop :=
  parent E = None \/ exists p, parent E = Some p /\ dangling entities P p.

(** The parent path of [E] designates the entity [E'] of [P]. *)
Definition parent_is (P : Project) (E E' : Entity) : Prop :=
  exists m n, parent E = Some (mkElementPath (Some m) (Some n))
              /\ stored entities P m n E'.

(** The inheritance chain of [E] through [P] is finite: [ancestors P E l]
    holds when [l] lists, root first, the entities that the parent paths
    designate from [E] upwards, up to an entity without a parent. *)
Inductive ancestors (P : Project) : Entity -> list Entity -> Prop :=
| ancestors_root E :
    is_root P E -> ancestors P E []
| ancestors_step E E' l :
    parent_is P E E' ->
    ancestors P E' l ->
    ancestors P E (l ++ [E']).

(** The names of the [TUnknown]-typed fields among the properties of
    [fieldsLocal], in the order of the properties. *)
Definition local_names (fl : obj Field) : list string :=
  flat_map
    (fun kv => match field_type (snd kv) with
               | TUnknown u => [u]
               | _ => []
               end)
    fl.

(** [o] is one of the keys of [m]. *)
Definition is_key {V} (m : obj V) (o : string) : bool :=
  existsb (String.eqb o) (keys m).

(** The unsolved generics along a chain given root first, in the words of the
    specification: what the chain so far leaves unsolved, then the local
    names of the next entity, without the keys of that entity's
    [genericMap]. *)
Definition unsolved_along (chain : list Entity) : list string :=
  fold_left
    (fun above E =>
       filter (fun o => negb (is_key (genericMap E) o))
              (above ++ local_names (fieldsLocal E)))
    chain [].


(** Every object of a project has one property per key. *)
Definition wf_project (P : Project) : Prop :=
  NoDup (keys (modules P))
  /\ forall m mo, In (m, mo) (modules P) ->
       NoDup (keys (entities mo)) /\ NoDup (keys (enums mo)).

(** [flatEntities] and [flatEnums] as the specification describes them: one
    pair per element of every module. *)
Definition pair_at {V} (m : string) (nv : string * V) : ElementPath * V :=
  (mkElementPath (Some m) (Some (fst nv)), snd nv).

Definition pairs_of {V} (sel : Module_ -> obj V) (P : Project)
  : list (ElementPath * V) :=
  flat_map (fun mm => map (pair_at (fst mm)) (sel (snd mm))) (modules P).

(** [k] names an item of least value, every item in front of it has a larger
    value: among the items of least value it is the one the scan meets
    first. *)
Definition first_of_least (m : obj EnumItem) (k : string) (it : EnumItem)
  : Prop :=
  exists before after,
    m = before ++ (k, it) :: after
    /\ (forall x, In x before -> (value it < value (snd x))%Z)
    /\ (forall x, In x after -> (value it <= value (snd x))%Z).

(** The same with the roles of the two sides exchanged: among the items of
    least value, [k] is the one the scan meets last. *)
Definition last_of_least (m : obj EnumItem) (k : string) (it : EnumItem)
  : Prop :=
  exists before after,
    m = before ++ (k, it) :: after
    /\ (forall x, In x before -> (value it <= value (snd x))%Z)
    /\ (forall x, In x after -> (value it < value (snd x))%Z).

(** An enum item that only has its value. *)
Definition item_of (v : Z) : EnumItem := mkEnumItem v "" None None.

(** The enum [{a: 3, b: 1, c: 1}] of the specification. *)
Definition enum_a3_b1_c1 : Enum :=
  mkEnum "" None [("a", item_of 3); ("b", item_of 1); ("c", item_of 1)].

(** The loop of [firstName] over the properties themselves. *)
Definition scan_step (st : option Z * option string) (kv : string * EnumItem)
  : option Z * option string :=
  if match fst st with
     | None => true
     | Some i => (value (snd kv) <? i)%Z
     end
  then (Some (value (snd kv)), Some (fst kv))
  else st.

(** What the scan holds after the properties [m]. *)
Definition scanned (m : obj EnumItem) (st : option Z * option string) : Prop :=
  (m = [] /\ st = (None, None))
  \/ (exists k it, st = (Some (value it), Some k) /\ first_of_least m k it).

(** The scenario of the specification: [Parent] introduces the generic ["T"],
    [Child] extends [Parent] and binds ["T"] in its [genericMap]. *)
Definition field_of (t : FieldType) : Field :=
  mkField "" None None false false None t.

Definition Parent : Entity :=
  mkEntity OBJECT "" None true None None None None
    [("payload", field_of (TUnknown "T")); ("id", field_of TID)] [].

Definition Child : Entity :=
  mkEntity OBJECT "" None false
    (Some (mkElementPath (Some "m") (Some "Parent"))) None None None
    [("more", field_of TString)] [("T", field_of TString)].

Definition family : Project :=
  mkProject "p" "1" "pkg"
    [("m", mkModule [("Parent", Parent); ("Child", Child)] [])].

(** The scenario document of the specification, as written there:
    [{modules:{m:{entities:{A:{type:0,isAbstract:false,fieldsLocal:{},
    genericMap:{}}}}}}]. *)
Definition doc_A : EntityDoc :=
  mkEntityDoc (Some 0%Z) (Some false) (Some []) (Some [])
    None None None None None None.

Definition doc_scenario : ProjectDoc :=
  mkProjectDoc None None None
    (Some [("m", Some (mkModuleDoc (Some [("A", Some doc_A)]) None))]).

(** The same with a project name, version and target package. *)
Definition doc_scenario_named : ProjectDoc :=
  mkProjectDoc (Some "p") (Some "1") (Some "pkg")
    (Some [("m", Some (mkModuleDoc (Some [("A", Some doc_A)]) None))]).

(** The same with, in addition, the (empty) [enums] of the module. *)
Definition doc_scenario_complete : ProjectDoc :=
  mkProjectDoc (Some "p") (Some "1") (Some "pkg")
    (Some [("m", Some (mkModuleDoc (Some [("A", Some doc_A)]) (Some [])))]).

(** An entity document with a field entry that lacks [isOptional] between two
    entries that lack nothing. *)
Definition doc_field (t : string) (isOptional : option bool) : FieldDoc :=
  mkFieldDoc (Some (mkFieldTypeDoc (Some t) None None None None))
    isOptional (Some false) None None None None.

Definition doc_three_fields : EntityDoc :=
  mkEntityDoc (Some 0%Z) (Some false)
    (Some [("id", Some (doc_field "TID" (Some false)));
           ("broken", Some (doc_field "TString" None));
           ("since", Some (doc_field "TDateTime" (Some true)))])
    (Some [])
    None None None None None None.

(** Documents in which every property is missing. *)
Definition doc_no_item : EnumItemDoc := mkEnumItemDoc None None None None.
Definition doc_no_enum : EnumDoc := mkEnumDoc None None None.
Definition doc_no_type : FieldTypeDoc :=
  mkFieldTypeDoc None None None None None.
Definition doc_no_field : FieldDoc :=
  mkFieldDoc None None None None None None None.
Definition doc_no_entity : EntityDoc :=
  mkEntityDoc None None None None None None None None None None.
Definition doc_no_module : ModuleDoc := mkModuleDoc None None.
Definition doc_no_project : ProjectDoc := mkProjectDoc None None None None.

(** [this.enumMap[name] = item] seen as an operation on the enum; there is
    no enum with a plain [enumMap] after an assignment that replaces the
    prototype. *)
Definition with_item (e : Enum) (name : string) (item : EnumItem)
  : option Enum :=
  match set (enumMap e) name item with
  | Property o => Some (mkEnum (enum_comment e) (enum_config e) o)
  | Prototype _ _ => None
  end.

(** An entity that introduces a generic named like a member of
    [Object.prototype], and one whose parent path has such a name for its
    module. *)
Definition Shadowed : Entity :=
  mkEntity OBJECT "" None false None None None None
    [("made", field_of (TUnknown "constructor"));
     ("payload", field_of (TUnknown "T"))] [].

Definition Stray : Entity :=
  mkEntity OBJECT "" None false
    (Some (mkElementPath (Some "constructor") (Some "Parent"))) None None None
    [] [].



(** The document that has the properties of the object, as
    [JSON.parse(JSON.stringify(x))] gives it: [module] and [name] for a
    path; [type] and the payload property of the subclass for a field
    type. *)
Definition doc_of_path (p : ElementPath) : ElementPathDoc :=
  mkElementPathDoc (module p) (name p).

Fixpoint doc_of_type (t : FieldType) : FieldTypeDoc :=
  match t with
  | TObject entity =>
      mkFieldTypeDoc (Some "TObject") (Some (doc_of_path entity))
        None None None
  | TEnum enu =>
      mkFieldTypeDoc (Some "TEnum") None (Some (doc_of_path enu)) None None
  | TList member =>
      mkFieldTypeDoc (Some "TList") None None (Some (doc_of_type member)) None
  | TUnknown unknown =>
      mkFieldTypeDoc (Some "TUnknown") None None None (Some unknown)
  | _ => mkFieldTypeDoc (Some (type_of t)) None None None None
  end.

(** The discriminators that [$FieldType.load] has a [case] for. *)
Definition known_tags : list string :=
  ["TInteger"; "TLong"; "TDouble"; "TID"; "TURL"; "TDateTime"; "TBoolean";
   "TString"; "TSSMap"; "TObject"; "TEnum"; "TList"; "TUnknown"].

(** The loop over a collection keeps the key [k]: [load] makes a node of the
    entry. *)
Definition keeps {D N} (load : option D -> res (option N))
  (src : obj (option D)) (k : string) : bool :=
  match load (entry src k) with
  | Ret (Some _) => true
  | _ => false
  end.

(** The collection has a property whose value is [null]. *)
Definition has_null_entry {D} (src : obj (option D)) : bool :=
  existsb (fun k => match entry src k with None => true | Some _ => false end)
          (keys src).

(** The visitor with which the ancestor walk computes the unsolved
    generics: one level of [getGenericUnsolved]. *)
Definition solve_level (E : Entity) (pg : list string) : list string :=
  filter (unsolved_here E) (pg ++ getGenericLocal E).

(** A project in which an entity names itself as its parent. *)
Definition Narcissus : Entity :=
  mkEntity OBJECT "" None false
    (Some (mkElementPath (Some "m") (Some "Narcissus"))) None None None
    [("image", field_of (TUnknown "T"))] [].

Definition pond : Project :=
  mkProject "p" "1" "pkg" [("m", mkModule [("Narcissus", Narcissus)] [])].

(** The generic parameter that the entry under [k] of a [fieldsLocal]
    document introduces: the name of its type when the entry loads to a
    field of type [TUnknown]. *)
Definition generic_of_entry (fl : obj (option FieldDoc)) (k : string)
  : list string :=
  match Field_load (entry fl k) with
  | Ret (Some f) =>
      match field_type f with
      | TUnknown u => [u]
      | _ => []
      end
  | _ => []
  end.

(* ================================================================= *)
(** * Properties *)

(** ** Dictionaries *)

Lemma get_In {V} (o : obj V) k v : get o k = Some v -> In (k, v) o.
Proof.
  induction o as [|[k' v'] r IH]; simpl; [discriminate|].
  destruct (String.eqb_spec k k') as [->|_].
  - intros [= ->]. now left.
  - intros H. right. now apply IH.
Qed.

Lemma get_None {V} (o : obj V) k : get o k = None <-> ~ In k (keys o).
Proof.
  induction o as [|[k' v'] r IH]; simpl.
  - tauto.
  - destruct (String.eqb_spec k k') as [->|Hne].
    + split; [discriminate | intros H; exfalso; apply H; now left].
    + rewrite IH. split; [intros H [E|I]; [congruence|tauto] | tauto].
Qed.

Lemma In_get {V} (o : obj V) k v :
  NoDup (keys o) -> In (k, v) o -> get o k = Some v.
Proof.
  induction o as [|[k' v'] r IH]; simpl; [tauto|].
  intros Hnd [E|I].
  - injection E as -> ->. now rewrite String.eqb_refl.
  - inversion Hnd as [|? ? Hnotin Hnd']; subst.
    destruct (String.eqb_spec k k') as [->|_].
    + exfalso. apply Hnotin. change k' with (fst (k', v)).
      now apply in_map.
    + now apply IH.
Qed.

Lemma is_key_get {V} (m : obj V) o :
  is_key m o = match get m o with Some _ => true | None => false end.
Proof.
  unfold is_key, keys.
  induction m as [|[k v] r IH]; simpl; [reflexivity|].
  destruct (String.eqb o k); [reflexivity | exact IH].
Qed.

(** A [for ... in] loop that reads [o[key]] sees each property once. *)
Lemma fold_keys_entries {V S} (o : obj V) (f : V -> string -> S -> S) :
  forall (whole : obj V), (forall k v, In (k, v) o -> get whole k = Some v) ->
  forall s,
    fold_left
      (fun s key => match get whole key with Some v => f v key s | None => s end)
      (keys o) s
    = fold_left (fun s kv => f (snd kv) (fst kv) s) o s.
Proof.
  intros whole.
  induction o as [|[k v] r IH]; simpl; intros Hget s; [reflexivity|].
  rewrite (Hget k v) by now left.
  apply IH. intros k' v' I. apply Hget. now right.
Qed.

Lemma forIn_entries {V S} (o : obj V) (cb : V -> string -> S -> S) s :
  NoDup (keys o) ->
  forIn o cb s = fold_left (fun s kv => cb (snd kv) (fst kv) s) o s.
Proof.
  intros Hnd. unfold forIn.
  apply fold_keys_entries.
  intros k v. now apply In_get.
Qed.

(** ** [$ElementPath] *)

Lemma loose_eq_iff a b : loose_eq a b = true <-> a = b.
Proof.
  destruct a as [x|], b as [y|]; simpl; try (split; congruence).
  rewrite String.eqb_eq. split; congruence.
Qed.

Lemma ElementPath_equals_iff p q :
  ElementPath_equals p (Some q) = true <-> p = q.
Proof.
  destruct p as [pm pn], q as [qm qn]; simpl.
  rewrite andb_true_iff, !loose_eq_iff.
  split; [intros [-> ->]; reflexivity | intros [= -> ->]; split; reflexivity].
Qed.

(** C9. [p.equals(q)] is true exactly when [p.module] equals [q.module] and
    [p.name] equals [q.name]; two paths with both coordinates null are equal;
    [p.equals(null)] and [p.equals(undefined)] are false. *)
Theorem ElementPath_equals_spec :
  forall p q : ElementPath,
    (ElementPath_equals p (Some q) = true
     <-> module p = module q /\ name p = name q)
    /\ ElementPath_equals (mkElementPath None None)
         (Some (mkElementPath None None)) = true
    /\ ElementPath_equals p None = false.
Proof.
  intros p q. split; [|split; reflexivity].
  rewrite ElementPath_equals_iff.
  destruct p, q; simpl. split; [intros [= -> ->]; tauto | intros [-> ->]; reflexivity].
Qed.

Lemma read_own {V} (o : obj V) k v : get o k = Some v -> read o k = Some (Own v).
Proof. unfold read. now intros ->. Qed.

Lemma read_absent {V} (o : obj V) k :
  get o k = None -> inherited k = false -> read o k = None.
Proof. unfold read. now intros -> ->. Qed.

Lemma read_inherited {V} (o : obj V) k :
  get o k = None -> inherited k = true -> read o k = Some (Inherited k).
Proof. unfold read. now intros -> ->. Qed.

Lemma inherited_In k : inherited k = true <-> In k object_prototype.
Proof.
  unfold inherited. rewrite existsb_exists. split.
  - intros (k' & Hin & Heq). apply String.eqb_eq in Heq. now subst.
  - intros Hin. exists k. split; [exact Hin|apply String.eqb_refl].
Qed.

Lemma not_inherited_In k : inherited k = false <-> ~ In k object_prototype.
Proof.
  rewrite <- inherited_In. destruct (inherited k); split; congruence.
Qed.

(** C8. The claim does not hold of the code.  [project.modules[this.module]]
    is read through [Object.prototype]: with [module] ["constructor"] (or
    ["toString"]), a key under which the project has no module, the read
    finds the inherited function, whose [entities] ([enums]) is
    [undefined], and [asEntityOf] ([asEnumOf]) throws a [TypeError] where the
    claim says it returns null; with [name] ["constructor"] in a module
    that has no such entity, [asEntityOf] returns the inherited function
    where the claim says null. *)
Theorem asEntityOf_prototype_member :
  ~ In "constructor" (keys (modules family))
  /\ asEntityOf (mkElementPath (Some "constructor") (Some "Parent"))
       (Some family) = Throw TypeError
  /\ ~ In "toString" (keys (modules family))
  /\ asEnumOf (mkElementPath (Some "toString") (Some "Parent"))
       (Some family) = Throw TypeError
  /\ (forall mo, In ("m", mo) (modules family) ->
                 ~ In "constructor" (keys (entities mo)))
  /\ asEntityOf (mkElementPath (Some "m") (Some "constructor"))
       (Some family) = Ret (Some (Inherited "constructor")).
Proof.
  split; [simpl; intuition discriminate|].
  split; [reflexivity|].
  split; [simpl; intuition discriminate|].
  split; [reflexivity|].
  split; [|reflexivity].
  intros mo [[= <-]|[]]. simpl. intuition discriminate.
Qed.

(** ** [$FieldType] *)

Lemma FieldType_equals_null A : FieldType_equals A None = false.
Proof. destruct A; reflexivity. Qed.

Lemma FieldType_equals_tags A B :
  type_of A <> type_of B -> FieldType_equals A (Some B) = false.
Proof.
  intros Hne.
  destruct A, B; simpl in *; try reflexivity; exfalso; apply Hne; reflexivity.
Qed.

Lemma FieldType_equals_payload_free A B :
  payload_free A = true -> type_of A = type_of B ->
  FieldType_equals A (Some B) = true.
Proof.
  destruct A; simpl; try discriminate; intros _ Ht;
    destruct B; simpl in Ht; try discriminate; reflexivity.
Qed.

Lemma FieldType_equals_iff A : forall B,
  FieldType_equals A (Some B) = true <-> A = B.
Proof.
  induction A as [p|p|m IH|s| | | | | | | | |]; intros B;
    destruct B as [q|q|m'|s'| | | | | | | | |]; simpl;
    try (split; [discriminate|congruence]);
    try (split; reflexivity).
  - change (ElementPath_equals p (Some q) = true <-> TObject p = TObject q).
    rewrite ElementPath_equals_iff. split; congruence.
  - change (ElementPath_equals p (Some q) = true <-> TEnum p = TEnum q).
    rewrite ElementPath_equals_iff. split; congruence.
  - rewrite IH. split; congruence.
  - rewrite String.eqb_eq. split; congruence.
Qed.

(** C3. [A.equals(B)] is false when [B] is null or undefined or when the tags
    differ; true when the tags are equal and without payload; on two
    [TObject] (two [TEnum]) it is [$ElementPath.equals] of the two paths, the
    entity behind the path playing no part; on two [TList] it is [equals] of
    the members; on two [TUnknown] it is true exactly when the names are
    equal.  Hence types built from equal tags and equal payloads, nested
    lists included, are equal. *)
Theorem FieldType_equals_spec :
  forall A B : FieldType,
    FieldType_equals A None = false
    /\ (type_of A <> type_of B -> FieldType_equals A (Some B) = false)
    /\ (payload_free A = true -> type_of A = type_of B ->
        FieldType_equals A (Some B) = true)
    /\ (forall p q, FieldType_equals (TObject p) (Some (TObject q))
                    = ElementPath_equals p (Some q))
    /\ (forall p q, FieldType_equals (TEnum p) (Some (TEnum q))
                    = ElementPath_equals p (Some q))
    /\ (forall m m', FieldType_equals (TList m) (Some (TList m'))
                     = FieldType_equals m (Some m'))
    /\ (forall s s', FieldType_equals (TUnknown s) (Some (TUnknown s')) = true
                     <-> s = s')
    /\ FieldType_equals A (Some A) = true.
Proof.
  intros A B.
  split; [apply FieldType_equals_null|].
  split; [apply FieldType_equals_tags|].
  split; [apply FieldType_equals_payload_free|].
  repeat split; try reflexivity.
  - simpl. now rewrite String.eqb_eq.
  - simpl. intros ->. apply String.eqb_refl.
  - now apply FieldType_equals_iff.
Qed.

(** The hypotheses of C3 at [TInteger] against [TLong] and against itself. *)
Lemma FieldType_equals_spec_witness :
  FieldType_equals TInteger (Some TLong) = false
  /\ FieldType_equals TInteger (Some TInteger) = true.
Proof.
  split.
  - apply (proj1 (proj2 (FieldType_equals_spec TInteger TLong))).
    simpl. discriminate.
  - apply (proj1 (proj2 (proj2 (FieldType_equals_spec TInteger TInteger))));
      reflexivity.
Defined.

Lemma equalsEvenInList_at_strip A B :
  String.eqb (type_of A) "TList" = false ->
  equalsEvenInList_at A B = Ret (FieldType_equals A (Some (strip_lists B))).
Proof.
  intros HA.
  induction B; simpl; rewrite HA; try reflexivity.
  exact IHB.
Qed.

(** C2. For a receiver [A] that is not a list, [A.equalsEvenInList(B)] is
    [A.equals] of [B] with every nesting of [TList] taken off, and
    [A.equalsEvenInList(null)] is false; for a receiver whose tag is [TList]
    every call throws the usage error, whatever the argument; and
    [TInteger.equalsEvenInList(TList(TList(TInteger)))] is true. *)
Theorem equalsEvenInList_spec :
  forall A : FieldType,
    (type_of A <> "TList" ->
       (forall B, equalsEvenInList A (Some B)
                  = Ret (FieldType_equals A (Some (strip_lists B))))
       /\ equalsEvenInList A None = Ret false)
    /\ (type_of A = "TList" ->
          forall B, equalsEvenInList A B = Throw usage_error)
    /\ equalsEvenInList TInteger (Some (TList (TList TInteger))) = Ret true.
Proof.
  intros A. split; [|split; [|reflexivity]].
  - intros HA. apply String.eqb_neq in HA.
    split.
    + intros B. unfold equalsEvenInList. rewrite HA. simpl.
      now apply equalsEvenInList_at_strip.
    + unfold equalsEvenInList. rewrite HA. reflexivity.
  - intros HA B. unfold equalsEvenInList.
    apply String.eqb_eq in HA. now rewrite HA.
Qed.

(** The hypotheses of C2 at the receivers [TString] and [TList TString]. *)
Lemma equalsEvenInList_spec_witness :
  equalsEvenInList TString (Some (TList TString)) = Ret true
  /\ equalsEvenInList (TList TString) (Some TString) = Throw usage_error.
Proof.
  split.
  - rewrite (proj1 (proj1 (equalsEvenInList_spec TString) ltac:(simpl; discriminate))).
    reflexivity.
  - apply (proj1 (proj2 (equalsEvenInList_spec (TList TString)))).
    reflexivity.
Defined.

(** ** [$Enum] *)

Lemma firstName_scan (e : Enum) :
  NoDup (keys (enumMap e)) ->
  firstName e = snd (fold_left scan_step (enumMap e) (None, None)).
Proof.
  intros Hnd. unfold firstName. f_equal.
  exact (fold_keys_entries (enumMap e)
           (fun v key st => scan_step st (key, v)) (enumMap e)
           (fun k v => @In_get _ (enumMap e) k v Hnd) (None, None)).
Qed.

Lemma scan_invariant (m : obj EnumItem) :
  scanned m (fold_left scan_step m (None, None)).
Proof.
  induction m as [|[k' it'] m IH] using rev_ind; [left; split; reflexivity|].
  rewrite fold_left_app. simpl. right.
  destruct IH as [[-> ->]|(k & it & Hst & before & after & Hm & Hb & Ha)].
  - unfold scan_step. simpl.
    exists k', it'. split; [reflexivity|].
    exists [], []. simpl. repeat split; intros ? [].
  - rewrite Hst. unfold scan_step. simpl.
    destruct (Z.ltb_spec (value it') (value it)) as [Hlt|Hge].
    + exists k', it'. split; [reflexivity|].
      exists m, []. repeat split; [|intros ? []].
      intros z Hz. rewrite Hm in Hz. apply in_app_or in Hz.
      destruct Hz as [Hz|[<-|Hz]].
      * specialize (Hb z Hz). lia.
      * simpl. lia.
      * specialize (Ha z Hz). lia.
    + exists k, it. split; [reflexivity|].
      exists before, (after ++ [(k', it')]). repeat split.
      * rewrite Hm, <- app_assoc. reflexivity.
      * exact Hb.
      * intros z Hz. apply in_app_or in Hz.
        destruct Hz as [Hz|[<-|[]]]; [now apply Ha | simpl; lia].
Qed.

Lemma first_of_least_In m k it : first_of_least m k it -> In (k, it) m.
Proof.
  intros (before & after & -> & _). apply in_or_app. right. now left.
Qed.

Lemma first_of_least_least m k it :
  first_of_least m k it -> forall x, In x m -> (value it <= value (snd x))%Z.
Proof.
  intros (before & after & -> & Hb & Ha) x Hx.
  apply in_app_or in Hx. destruct Hx as [Hx|[<-|Hx]].
  - specialize (Hb x Hx). lia.
  - simpl. lia.
  - now apply Ha.
Qed.

(** C4, as the code has it. On an enum without items [firstName()] and
    [first()] are null. On any other enum [firstName()] is a key whose item
    has the least value of all items, [first()] is the item stored under that
    key, and, when several items have the least value, the key is that of the
    one the scan visits first. On [{a: 3, b: 1, c: 1}] the name is ["b"], a
    member of [{"b", "c"}]. *)
Theorem firstName_first_spec :
  forall e : Enum,
    NoDup (keys (enumMap e)) ->
    (enumMap e = [] -> firstName e = None /\ first e = None)
    /\ (enumMap e <> [] ->
        exists k it,
          firstName e = Some k
          /\ first e = Some it
          /\ get (enumMap e) k = Some it
          /\ (forall k' it', In (k', it') (enumMap e) ->
                (value it <= value it')%Z)
          /\ first_of_least (enumMap e) k it)
    /\ firstName enum_a3_b1_c1 = Some "b"
    /\ In "b" ["b"; "c"].
Proof.
  intros e Hnd. split; [|split; [|split; [reflexivity | now left]]].
  - intros Hm. unfold first, firstName. rewrite Hm. split; reflexivity.
  - intros Hm.
    pose proof (scan_invariant (enumMap e)) as Hs.
    pose proof (firstName_scan e Hnd) as Hf.
    destruct Hs as [[Hs _]|(k & it & Hst & Hfirst)]; [congruence|].
    rewrite Hst in Hf. simpl in Hf.
    assert (Hget : get (enumMap e) k = Some it).
    { apply In_get; [exact Hnd|]. now apply first_of_least_In. }
    exists k, it. unfold first. rewrite Hf, Hget.
    repeat split; try assumption.
    intros k' it' Hin.
    apply (first_of_least_least Hfirst (k', it') Hin).
Qed.

(** The hypotheses of C4 at the enum [{a: 3, b: 1, c: 1}]. *)
Lemma firstName_first_spec_witness :
  exists k it,
    firstName enum_a3_b1_c1 = Some k
    /\ first enum_a3_b1_c1 = Some it
    /\ get (enumMap enum_a3_b1_c1) k = Some it
    /\ (forall k' it', In (k', it') (enumMap enum_a3_b1_c1) ->
          (value it <= value it')%Z)
    /\ first_of_least (enumMap enum_a3_b1_c1) k it.
Proof.
  assert (Hnd : NoDup (keys (enumMap enum_a3_b1_c1))).
  { simpl. repeat constructor; simpl; intuition discriminate. }
  apply (proj1 (proj2 (firstName_first_spec enum_a3_b1_c1 Hnd))).
  simpl. discriminate.
Defined.

(** C4 as stated fails: on [{a: 3, b: 1, c: 1}] the scan visits ["b"] before
    ["c"], both have the least value, and the name returned is ["b"], which
    is not the one visited last. *)
Lemma firstName_tie_not_last :
  firstName enum_a3_b1_c1 = Some "b"
  /\ get (enumMap enum_a3_b1_c1) "b" = Some (item_of 1)
  /\ ~ last_of_least (enumMap enum_a3_b1_c1) "b" (item_of 1).
Proof.
  split; [reflexivity|]. split; [reflexivity|].
  intros (before & after & Hm & _ & Ha).
  simpl in Hm.
  destruct before as [|x0 [|x1 [|x2 [|x3 before]]]]; simpl in Hm;
    try discriminate.
  inversion Hm; subst.
  specialize (Ha ("c", item_of 1) (or_introl eq_refl)). simpl in Ha. lia.
Qed.

(** ** [$Entity] *)

Lemma wf_entities P m mo :
  wf_project P -> In (m, mo) (modules P) -> NoDup (keys (entities mo)).
Proof. intros (_ & H) I. now apply (H m mo). Qed.

Lemma wf_enums P m mo :
  wf_project P -> In (m, mo) (modules P) -> NoDup (keys (enums mo)).
Proof. intros (_ & H) I. now apply (H m mo). Qed.

Lemma asEntityOf_entity P p e :
  wf_project P ->
  (asEntityOf p (Some P) = Ret (Some (Own e))
   <-> exists m n, p = mkElementPath (Some m) (Some n)
                   /\ stored entities P m n e).
Proof.
  intros Hwf. pose proof Hwf as (Hnd & _). unfold asEntityOf, stored.
  destruct p as [[m|] [n|]]; simpl;
    try (split; [discriminate|intros (? & ? & [=] & _)]).
  unfold read at 1. destruct (get (modules P) m) as [mo|] eqn:Hm.
  - pose proof (get_In _ _ Hm) as Hin.
    pose proof (wf_entities m mo Hwf Hin) as Hnde.
    split.
    + unfold read. destruct (get (entities mo) n) as [e'|] eqn:Hn.
      * intros [= ->]. exists m, n. split; [reflexivity|].
        exists mo. split; [exact Hin|now apply get_In].
      * destruct (inherited n); discriminate.
    + intros (m' & n' & [= <- <-] & mo' & Hin' & Hn').
      assert (mo' = mo) by (apply (In_get _ _ _ Hnd) in Hin'; congruence).
      subst mo'. now rewrite (read_own _ _ (In_get _ _ _ Hnde Hn')).
  - split.
    + destruct (inherited m); discriminate.
    + intros (m' & n' & [= <- <-] & mo' & Hin' & _).
      apply (In_get _ _ _ Hnd) in Hin'. congruence.
Qed.

Lemma asEntityOf_null P p :
  wf_project P ->
  (asEntityOf p (Some P) = Ret None <-> dangling entities P p).
Proof.
  intros Hwf. pose proof Hwf as (Hnd & _). unfold asEntityOf, dangling, absent.
  destruct p as [[m|] [n|]]; simpl; try (split; [tauto|reflexivity]).
  unfold read at 1. destruct (get (modules P) m) as [mo|] eqn:Hm.
  - pose proof (get_In _ _ Hm) as Hin.
    split.
    + unfold read. destruct (get (entities mo) n) as [e'|] eqn:Hn;
        [discriminate|].
      destruct (inherited n) eqn:Hi; [discriminate|]. intros _.
      right; right; right. exists m, n, mo. repeat split; try assumption.
      * now apply get_None.
      * now apply not_inherited_In.
    + intros [H|[H|[(m' & [= <-] & Hk & _)|
                    (m' & n' & mo' & [= <-] & [= <-] & Hin' & Hk & Hp)]]];
        try discriminate.
      * exfalso. apply Hk. change m with (fst (m, mo)). now apply in_map.
      * assert (mo' = mo) by (apply (In_get _ _ _ Hnd) in Hin'; congruence).
        subst mo'. f_equal. apply read_absent; [now apply get_None|].
        now apply not_inherited_In.
  - destruct (inherited m) eqn:Hi.
    + split; [discriminate|].
      intros [H|[H|[(m' & [= <-] & _ & Hp)|
                    (m' & n' & mo' & [= <-] & _ & Hin' & _)]]];
        try discriminate.
      * exfalso. apply Hp. now apply inherited_In.
      * apply (In_get _ _ _ Hnd) in Hin'. congruence.
    + split; [|reflexivity]. intros _. right; right; left.
      exists m. repeat split; [now apply get_None|now apply not_inherited_In].
Qed.

Lemma parentEntity_parent_is P E E' :
  wf_project P ->
  (parentEntity E (Some P) = Ret (Some (Own E')) <-> parent_is P E E').
Proof.
  intros Hwf. unfold parentEntity, parent_is.
  destruct (parent E) as [p|].
  - rewrite (asEntityOf_entity p E' Hwf). split.
    + intros (m & n & -> & H). now exists m, n.
    + intros (m & n & [= ->] & H). now exists m, n.
  - split; [discriminate|intros (? & ? & [=] & _)].
Qed.

Lemma parentEntity_is_root P E :
  wf_project P ->
  (parentEntity E (Some P) = Ret None <-> is_root P E).
Proof.
  intros Hwf. unfold parentEntity, is_root.
  destruct (parent E) as [p|].
  - rewrite (asEntityOf_null p Hwf). split.
    + intros H. right. now exists p.
    + intros [[=]|(p' & [= <-] & H)]. exact H.
  - split; [now left|reflexivity].
Qed.

Lemma ancestors_functional P E l :
  wf_project P ->
  ancestors P E l -> forall l', ancestors P E l' -> l = l'.
Proof.
  intros Hwf.
  induction 1 as [E Hroot|E E' l Hp _ IH]; intros l' H'; inversion H'; subst;
    try reflexivity.
  - apply (parentEntity_is_root E Hwf) in Hroot.
    apply (parentEntity_parent_is E _ Hwf) in H. congruence.
  - apply (parentEntity_is_root E Hwf) in H.
    apply (parentEntity_parent_is E _ Hwf) in Hp. congruence.
  - apply (parentEntity_parent_is E _ Hwf) in H, Hp.
    assert (E'0 = E') by congruence. subst. f_equal. now apply IH.
Qed.

Lemma ancestors_root_first P E l :
  ancestors P E l ->
  exists root, hd_error (l ++ [E]) = Some root /\ is_root P root.
Proof.
  induction 1 as [E Hp|E E' l Hp _ (root & Hhd & Hroot)].
  - exists E. now split.
  - exists root. split; [|exact Hroot].
    destruct (l ++ [E']) eqn:Hl; [discriminate|exact Hhd].
Qed.

Lemma ancestors_linked P E l :
  ancestors P E l ->
  forall i a b,
    nth_error (l ++ [E]) i = Some a ->
    nth_error (l ++ [E]) (S i) = Some b ->
    parent_is P b a.
Proof.
  induction 1 as [E Hp|E E' l Hp _ IH]; intros i a b Ha Hb.
  - simpl in Hb. destruct i; discriminate.
  - assert (Hlen : List.length (l ++ [E']) = S (List.length l))
      by (rewrite length_app; simpl; lia).
    destruct (Nat.lt_ge_cases (S i) (List.length (l ++ [E']))) as [Hlt|Hge].
    + rewrite nth_error_app1 in Ha by lia.
      rewrite nth_error_app1 in Hb by lia.
      now apply (IH i).
    + assert (Hi : i = List.length l).
      { assert (S i < List.length ((l ++ [E']) ++ [E]))
          by (apply nth_error_Some; congruence).
        rewrite length_app in H. simpl in H. lia. }
      subst i.
      rewrite nth_error_app1 in Ha by lia.
      rewrite nth_error_app2 in Ha by lia.
      rewrite Nat.sub_diag in Ha. simpl in Ha.
      rewrite nth_error_app2 in Hb by lia.
      rewrite Hlen, Nat.sub_diag in Hb. simpl in Hb.
      congruence.
Qed.

Lemma fromAncestorToMe_chain P E l :
  wf_project P ->
  ancestors P E l ->
  forall S (block : Entity -> S -> S) (s : S) fuel,
    List.length l <= fuel ->
    fromAncestorToMe fuel E P block s
    = Some (Ret (fold_left (fun s e => block e s) (l ++ [E]) s)).
Proof.
  intros Hwf.
  induction 1 as [E Hp|E E' l Hp _ IH]; intros S block s fuel Hfuel.
  - apply (parentEntity_is_root E Hwf) in Hp.
    destruct fuel; simpl; rewrite Hp; reflexivity.
  - apply (parentEntity_parent_is E E' Hwf) in Hp.
    rewrite length_app in Hfuel. simpl in Hfuel.
    destruct fuel as [|fuel]; [lia|].
    simpl. rewrite Hp, (IH S block s fuel) by lia. simpl.
    now rewrite (fold_left_app _ (l ++ [E']) [E]).
Qed.

Lemma fold_left_snoc {A} (chain acc : list A) :
  fold_left (fun visited e => visited ++ [e]) chain acc = acc ++ chain.
Proof.
  revert acc. induction chain as [|e chain IH]; intros acc; simpl.
  - now rewrite app_nil_r.
  - rewrite IH, <- app_assoc. reflexivity.
Qed.

(** C5. The claim does not hold of the code.  The entity [Stray] has the
    parent path [{module: "constructor", name: "Parent"}], and the project
    has no module under ["constructor"]: the path does not resolve, and the
    claim has the walk visit [Stray] alone.  In the code the read of
    [project.modules["constructor"]] finds the inherited function, and
    [fromAncestorToMe] throws a [TypeError] before it visits anything. *)
Theorem fromAncestorToMe_throws_before_visiting :
  forall fuel,
    parent Stray = Some (mkElementPath (Some "constructor") (Some "Parent"))
    /\ ~ In "constructor" (keys (modules family))
    /\ fromAncestorToMe fuel Stray family (fun e visited => visited ++ [e]) []
       = Some (Throw TypeError).
Proof.
  intros fuel. split; [reflexivity|].
  split; [simpl; intuition discriminate|].
  destruct fuel; reflexivity.
Qed.

Lemma local_names_fold (fl : obj Field) (acc : list string) :
  fold_left
    (fun result kv =>
       if String.eqb (type_of (field_type (snd kv))) "TUnknown"
       then match unknown_of (field_type (snd kv)) with
            | Some u => result ++ [u]
            | None => result
            end
       else result)
    fl acc
  = acc ++ local_names fl.
Proof.
  revert acc. induction fl as [|[k f] r IH]; intros acc; simpl.
  - now rewrite app_nil_r.
  - rewrite IH. destruct (field_type f); simpl;
      rewrite ?app_nil_r, <- ?app_assoc; reflexivity.
Qed.

Lemma getGenericLocal_names (E : Entity) :
  NoDup (keys (fieldsLocal E)) ->
  getGenericLocal E = local_names (fieldsLocal E).
Proof.
  intros Hnd. unfold getGenericLocal.
  rewrite (fold_keys_entries (fieldsLocal E)
             (fun field (_ : string) result =>
                if String.eqb (type_of (field_type field)) "TUnknown"
                then match unknown_of (field_type field) with
                     | Some u => result ++ [u]
                     | None => result
                     end
                else result)
             (fieldsLocal E))
    by (intros k v; now apply In_get).
  apply (local_names_fold (fieldsLocal E) []).
Qed.

Lemma unsolved_here_is_key (E : Entity) (o : string) :
  unsolved_here E o = negb (is_key (genericMap E) o) && negb (inherited o).
Proof.
  unfold unsolved_here, read. rewrite is_key_get.
  destruct (get (genericMap E) o); [reflexivity|].
  now destruct (inherited o).
Qed.






(** C1. The claim does not hold of the code.  [Shadowed] has no parent, an
    empty [genericMap] and the local generics ["constructor"] and ["T"]: the
    claim gives both names, the code gives ["T"] alone, because
    [this.genericMap["constructor"]] finds the inherited function.  And for
    [Stray], whose parent path does not resolve, the claim gives the empty
    list where the code throws a [TypeError]. *)
Theorem getGenericUnsolved_drops_prototype_names :
  forall fuel,
    parent Shadowed = None
    /\ keys (genericMap Shadowed) = []
    /\ getGenericLocal Shadowed = ["constructor"; "T"]
    /\ unsolved_along [Shadowed] = ["constructor"; "T"]
    /\ getGenericUnsolved fuel Shadowed (Some family) = Some (Ret ["T"])
    /\ ~ In "constructor" (keys (modules family))
    /\ getGenericUnsolved fuel Stray (Some family) = Some (Throw TypeError).
Proof.
  intros fuel. repeat split; try reflexivity;
    try (destruct fuel; reflexivity).
  simpl. intuition discriminate.
Qed.

(** The scenario of the specification, by evaluation. *)
Example getGenericUnsolved_Parent :
  getGenericUnsolved 0 Parent (Some family) = Some (Ret ["T"]).
Proof. reflexivity. Qed.

Example getGenericUnsolved_Child :
  getGenericUnsolved 1 Child (Some family) = Some (Ret []).
Proof. reflexivity. Qed.

(** ** [$Project] *)

Section Flat.

Context {V : Type}.
Variable sel : Module_ -> obj V.

Lemma push_pairs (m : string) (o : obj V) (acc : list (ElementPath * V)) :
  fold_left (fun result nv => result ++ [pair_at m nv]) o acc
  = acc ++ map (pair_at m) o.
Proof.
  revert acc. induction o as [|nv o IH]; intros acc; simpl.
  - now rewrite app_nil_r.
  - rewrite IH, <- app_assoc. reflexivity.
Qed.

Lemma forIn_modules (ms : obj Module_) (acc : list (ElementPath * V)) :
  (forall m mo, In (m, mo) ms -> NoDup (keys (sel mo))) ->
  fold_left
    (fun result mm =>
       forIn (sel (snd mm))
         (fun v n result =>
            result ++ [(mkElementPath (Some (fst mm)) (Some n), v)])
         result)
    ms acc
  = acc ++ flat_map (fun mm => map (pair_at (fst mm)) (sel (snd mm))) ms.
Proof.
  revert acc. induction ms as [|[m mo] ms IH]; intros acc Hin; simpl.
  - now rewrite app_nil_r.
  - rewrite forIn_entries by (apply (Hin m); now left).
    rewrite (push_pairs m), IH, <- app_assoc; [reflexivity|].
    intros m' mo' I. apply (Hin m'). now right.
Qed.

Lemma flat_pairs (P : Project) :
  NoDup (keys (modules P)) ->
  (forall m mo, In (m, mo) (modules P) -> NoDup (keys (sel mo))) ->
  forIn (modules P)
    (fun moduleInstance module result =>
       forIn (sel moduleInstance)
         (fun v n result =>
            result ++ [(mkElementPath (Some module) (Some n), v)])
         result)
    []
  = pairs_of sel P.
Proof.
  intros Hnd Hin. rewrite forIn_entries by exact Hnd.
  now rewrite forIn_modules.
Qed.

Lemma In_pairs_of (P : Project) (p : ElementPath) (v : V) :
  NoDup (keys (modules P)) ->
  (forall m mo, In (m, mo) (modules P) -> NoDup (keys (sel mo))) ->
  In (p, v) (pairs_of sel P)
  <-> exists m n mo,
        p = mkElementPath (Some m) (Some n)
        /\ get (modules P) m = Some mo
        /\ get (sel mo) n = Some v.
Proof.
  intros Hnd Hin. unfold pairs_of. rewrite in_flat_map. split.
  - intros ([m mo] & Hm & Hp). apply in_map_iff in Hp.
    destruct Hp as ([n v'] & [= <- <-] & Hn). simpl in *.
    exists m, n, mo. repeat split.
    + now apply In_get.
    + apply In_get; [now apply (Hin m)|exact Hn].
  - intros (m & n & mo & -> & Hm & Hn).
    exists (m, mo). split; [now apply get_In|].
    apply in_map_iff. exists (n, v). split; [reflexivity|now apply get_In].
Qed.

Lemma NoDup_paths (m : string) (o : obj V) :
  NoDup (keys o) -> NoDup (map fst (map (pair_at m) o)).
Proof.
  induction o as [|[n v] o IH]; simpl; intros Hnd; [constructor|].
  inversion Hnd as [|? ? Hnotin Hnd']; subst.
  constructor; [|now apply IH].
  intros Hin. apply Hnotin.
  rewrite map_map in Hin. apply in_map_iff in Hin.
  destruct Hin as ([n' v'] & [= ->] & Hin).
  change n with (fst (n, v')). now apply in_map.
Qed.

Lemma NoDup_pairs_of (P : Project) :
  NoDup (keys (modules P)) ->
  (forall m mo, In (m, mo) (modules P) -> NoDup (keys (sel mo))) ->
  NoDup (map fst (pairs_of sel P)).
Proof.
  unfold pairs_of.
  induction (modules P) as [|[m mo] ms IH]; simpl; intros Hnd Hin;
    [constructor|].
  inversion Hnd as [|? ? Hnotin Hnd']; subst.
  rewrite map_app. apply NoDup_app.
  - apply (NoDup_paths m). apply (Hin m). now left.
  - apply IH; [exact Hnd'|].
    intros m' mo' I. apply (Hin m'). now right.
  - intros p Hp Hq. apply Hnotin.
    rewrite map_map in Hp. apply in_map_iff in Hp.
    destruct Hp as ([n v] & <- & _).
    apply in_map_iff in Hq. destruct Hq as ([q w] & Hq & Hqw).
    simpl in Hq. subst q.
    apply in_flat_map in Hqw. destruct Hqw as ([m' mo'] & Hm' & Hqw).
    apply in_map_iff in Hqw. destruct Hqw as ([n' v'] & [= -> _ _] & _).
    change m with (fst (m, mo')). now apply in_map.
Qed.

End Flat.

(** ** Loading *)

(** *** Assignments to a dictionary *)

Lemma keys_replace {V} (o : obj V) k v : keys (replace o k v) = keys o.
Proof.
  induction o as [|[k0 v0] r IH]; simpl; [reflexivity|].
  destruct (String.eqb k k0); simpl; [reflexivity|now rewrite IH].
Qed.

Lemma get_replace {V} (o : obj V) k v k' :
  get o k <> None ->
  get (replace o k v) k' = if String.eqb k' k then Some v else get o k'.
Proof.
  induction o as [|[k0 v0] r IH]; simpl; [congruence|].
  destruct (String.eqb_spec k k0) as [->|Hne]; simpl.
  - intros _. destruct (String.eqb k' k0); reflexivity.
  - intros H. rewrite (IH H).
    destruct (String.eqb_spec k' k0) as [->|_]; [|reflexivity].
    destruct (String.eqb_spec k0 k); [congruence|reflexivity].
Qed.

Lemma In_replace {V} (o : obj V) k v kv :
  In kv (replace o k v) -> In kv o \/ kv = (k, v).
Proof.
  induction o as [|[k0 v0] r IH]; simpl; [tauto|].
  destruct (String.eqb_spec k k0) as [->|_]; simpl.
  - intros [<-|I]; [now right | left; now right].
  - intros [<-|I]; [left; now left|].
    destruct (IH I) as [I'|E]; [left; now right | now right].
Qed.

(** A new property goes somewhere between the others, which keep their
    order. *)
Lemma insert_index_split {V} (o : obj V) n k v :
  exists l1 l2, o = l1 ++ l2 /\ insert_index o n k v = l1 ++ (k, v) :: l2.
Proof.
  induction o as [|[k0 v0] r (l1 & l2 & Hr & Hi)]; simpl.
  - now exists [], [].
  - destruct (array_index k0) as [n'|].
    + destruct (n <? n')%N.
      * now exists [], ((k0, v0) :: r).
      * exists ((k0, v0) :: l1), l2. simpl. now rewrite <- Hr, Hi.
    + now exists [], ((k0, v0) :: r).
Qed.

Lemma put_new {V} (o : obj V) k v :
  get o k = None ->
  exists l1 l2, o = l1 ++ l2 /\ put o k v = l1 ++ (k, v) :: l2.
Proof.
  intros Hk. unfold put. rewrite Hk.
  destruct (array_index k) as [n|]; [apply insert_index_split|].
  exists o, []. now rewrite app_nil_r.
Qed.

Lemma put_new_plain {V} (o : obj V) k v :
  get o k = None -> array_index k = None -> put o k v = o ++ [(k, v)].
Proof. intros Hk Hi. unfold put. now rewrite Hk, Hi. Qed.

Lemma get_app {V} (l1 l2 : obj V) k :
  get (l1 ++ l2) k = match get l1 k with Some v => Some v | None => get l2 k end.
Proof.
  induction l1 as [|[k0 v0] r IH]; simpl; [reflexivity|].
  destruct (String.eqb k k0); [reflexivity|exact IH].
Qed.

Lemma get_put {V} (o : obj V) k v k' :
  get (put o k v) k' = if String.eqb k' k then Some v else get o k'.
Proof.
  destruct (get o k) as [x|] eqn:Hk.
  - unfold put. rewrite Hk. apply get_replace. congruence.
  - destruct (put_new o k v Hk) as (l1 & l2 & -> & ->).
    rewrite get_app in Hk. rewrite !get_app. simpl.
    destruct (String.eqb_spec k' k) as [->|_].
    + destruct (get l1 k); [discriminate|reflexivity].
    + reflexivity.
Qed.

Lemma In_put {V} (o : obj V) k v kv :
  In kv (put o k v) -> In kv o \/ kv = (k, v).
Proof.
  destruct (get o k) as [x|] eqn:Hk.
  - unfold put. rewrite Hk. apply In_replace.
  - destruct (put_new o k v Hk) as (l1 & l2 & -> & ->).
    rewrite !in_app_iff. simpl. intuition.
Qed.

Lemma NoDup_put {V} (o : obj V) k v :
  NoDup (keys o) -> NoDup (keys (put o k v)).
Proof.
  intros Hnd. destruct (get o k) as [x|] eqn:Hk.
  - unfold put. now rewrite Hk, keys_replace.
  - destruct (put_new o k v Hk) as (l1 & l2 & -> & ->).
    apply get_None in Hk. unfold keys in *. rewrite map_app in *. simpl.
    apply (NoDup_Add (Add_app k (map fst l1) (map fst l2))). now split.
Qed.

Lemma set_plain {V} (o : obj V) k v :
  k <> "__proto__" -> set o k v = Property (put o k v).
Proof.
  intros Hk. unfold set. destruct (get o k); [reflexivity|].
  now destruct (String.eqb_spec k "__proto__").
Qed.

Lemma set_proto {V} (o : obj V) v :
  get o "__proto__" = None -> set o "__proto__" v = Prototype o v.
Proof. intros Hk. unfold set. now rewrite Hk. Qed.

(** *** The marks of the outcome *)

Lemma pollute_Ret {A} (m : res A) a : pollute m <> Ret a.
Proof. destruct m; discriminate. Qed.

Lemma pollute_Throw {A} (m : res A) msg :
  pollute m = Throw msg <-> m = Throw msg.
Proof. destruct m; simpl; split; congruence. Qed.

Lemma pollute_pollute {A} (m : res A) : pollute (pollute m) = pollute m.
Proof. now destruct m. Qed.

Lemma returns_pollute {A} (m : res A) a : returns (pollute m) a <-> returns m a.
Proof.
  unfold returns. destruct m; simpl; split; intros [H|H];
    try discriminate; injection H as ->; auto.
Qed.

Lemma bind_Ret_inv {A B} (m : res A) (f : A -> res B) b :
  bind m f = Ret b -> exists a, m = Ret a /\ f a = Ret b.
Proof.
  destruct m as [a|msg|a]; simpl; [eauto|discriminate|].
  intros H. now apply pollute_Ret in H.
Qed.

Lemma bind_returns {A B} (m : res A) (f : A -> res B) a b :
  returns m a -> returns (f a) b -> returns (bind m f) b.
Proof.
  intros [->| ->] Hf; simpl; [exact Hf|now apply returns_pollute].
Qed.

Lemma bind_throws {A B} (m : res A) (f : A -> res B) a msg :
  returns m a -> f a = Throw msg -> bind m f = Throw msg.
Proof. intros [->| ->] Hf; simpl; [exact Hf|now apply pollute_Throw]. Qed.

(** *** The loop of the loaders *)

Section Loop.

Context {D N : Type}.
Variable load : option D -> res (option N).
Variable src : obj (option D).

Lemma load_step_Throw msg ks :
  fold_left (load_step load src) ks (Throw msg) = Throw msg.
Proof. induction ks; simpl; [reflexivity|exact IHks]. Qed.

Lemma load_step_Ret dst i :
  load_step load src (Ret dst) i
  = match load (entry src i) with
    | Ret (Some node) =>
        match set dst i node with
        | Property dst' => Ret dst'
        | Prototype dst' _ => Polluted dst'
        end
    | Ret None => Ret dst
    | Throw msg => Throw msg
    | Polluted (Some node) =>
        match set dst i node with
        | Property dst' | Prototype dst' _ => Polluted dst'
        end
    | Polluted None => Polluted dst
    end.
Proof.
  unfold load_step. simpl.
  destruct (load (entry src i)) as [[x|]|msg|[x|]]; simpl; try reflexivity;
    now destruct (set dst i x).
Qed.

Lemma load_step_pollute acc i :
  load_step load src (pollute acc) i = pollute (load_step load src acc i).
Proof.
  destruct acc as [dst|msg|dst]; simpl; try reflexivity.
  unfold load_step. simpl. now rewrite pollute_pollute.
Qed.

Lemma load_loop_pollute ks acc :
  fold_left (load_step load src) ks (pollute acc)
  = pollute (fold_left (load_step load src) ks acc).
Proof.
  revert acc. induction ks as [|i ks IH]; intros acc; cbn [fold_left];
    [reflexivity|].
  now rewrite load_step_pollute, IH.
Qed.

Lemma load_loop_Polluted ks dst :
  fold_left (load_step load src) ks (Polluted dst)
  = pollute (fold_left (load_step load src) ks (Ret dst)).
Proof. apply (load_loop_pollute ks (Ret dst)). Qed.

(** A loop that returns without a mark: no call of [load] threw or returned
    a marked node, no node was assigned under ["__proto__"], and the
    property under a key is what [load] made of the entry. *)
Lemma load_loop_clean ks : forall dst o,
  fold_left (load_step load src) ks (Ret dst) = Ret o ->
  get dst "__proto__" = None ->
  (forall i, In i ks -> exists x, load (entry src i) = Ret x)
  /\ (forall k,
        get o k
        = if existsb (String.eqb k) ks
          then match load (entry src k) with
               | Ret (Some node) => Some node
               | _ => get dst k
               end
          else get dst k)
  /\ get o "__proto__" = None.
Proof.
  induction ks as [|i ks IH]; intros dst o; cbn [fold_left].
  - intros [= ->] Hp. repeat split; [intros i []|exact Hp].
  - rewrite load_step_Ret.
    destruct (load (entry src i)) as [[node|]|msg|[node|]] eqn:Hi.
    + unfold set. destruct (get dst i) as [x|] eqn:Hgi.
      * intros Ho Hp.
        assert (Hne : i <> "__proto__") by (intros ->; congruence).
        assert (Hp' : get (put dst i node) "__proto__" = None).
        { rewrite get_put. destruct (String.eqb_spec "__proto__" i);
            [congruence|exact Hp]. }
        destruct (IH _ _ Ho Hp') as (Hret & Hget & Hpo).
        split; [intros j [<-|Hj]; [eauto|now apply Hret]|].
        split; [|exact Hpo]. intros k. rewrite Hget, get_put. simpl.
        destruct (String.eqb_spec k i) as [->|_]; simpl; [|reflexivity].
        rewrite Hi. now destruct (existsb (String.eqb i) ks).
      * destruct (String.eqb_spec i "__proto__") as [->|Hne].
        -- rewrite load_loop_Polluted. intros H.
           now apply pollute_Ret in H.
        -- intros Ho Hp.
           assert (Hp' : get (put dst i node) "__proto__" = None).
           { rewrite get_put. destruct (String.eqb_spec "__proto__" i);
               [congruence|exact Hp]. }
           destruct (IH _ _ Ho Hp') as (Hret & Hget & Hpo).
           split; [intros j [<-|Hj]; [eauto|now apply Hret]|].
           split; [|exact Hpo]. intros k. rewrite Hget, get_put. simpl.
           destruct (String.eqb_spec k i) as [->|_]; simpl; [|reflexivity].
           rewrite Hi. now destruct (existsb (String.eqb i) ks).
    + intros Ho Hp. destruct (IH _ _ Ho Hp) as (Hret & Hget & Hpo).
      split; [intros j [<-|Hj]; [eauto|now apply Hret]|].
      split; [|exact Hpo]. intros k. rewrite Hget. simpl.
      destruct (String.eqb_spec k i) as [->|_]; simpl; [|reflexivity].
      rewrite Hi. now destruct (existsb (String.eqb i) ks).
    + rewrite load_step_Throw. discriminate.
    + destruct (set dst i node); rewrite load_loop_Polluted; intros H;
        now apply pollute_Ret in H.
    + rewrite load_loop_Polluted. intros H. now apply pollute_Ret in H.
Qed.

(** The loop returns without a mark when every call of [load] does and no
    key is ["__proto__"]. *)
Lemma load_loop_Ret ks :
  (forall i, In i ks -> exists x, load (entry src i) = Ret x) ->
  ~ In "__proto__" ks ->
  forall dst, exists o, fold_left (load_step load src) ks (Ret dst) = Ret o.
Proof.
  induction ks as [|i ks IH]; intros Hload Hp dst; cbn [fold_left]; [eauto|].
  rewrite load_step_Ret.
  destruct (Hload i (or_introl eq_refl)) as ([node|] & ->).
  - rewrite (set_plain dst node) by (intros ->; apply Hp; now left).
    apply IH; [intros j Hj; apply Hload; now right|].
    intros H. apply Hp. now right.
  - apply IH; [intros j Hj; apply Hload; now right|].
    intros H. apply Hp. now right.
Qed.

Lemma load_step_returns acc dst i x :
  returns acc dst -> returns (load (entry src i)) x ->
  exists dst', returns (load_step load src acc i) dst'.
Proof.
  intros Hacc Hx. unfold load_step.
  destruct x as [node|].
  - destruct (set dst i node) as [d'|d' pr] eqn:Hset; exists d';
      apply (bind_returns _ Hacc), (bind_returns _ Hx); simpl;
      rewrite Hset; [now left|now right].
  - exists dst. apply (bind_returns _ Hacc), (bind_returns _ Hx). now left.
Qed.

(** The loop returns, with or without a mark, when no call of [load]
    throws. *)
Lemma load_loop_returns ks :
  (forall i, In i ks -> exists x, returns (load (entry src i)) x) ->
  forall acc dst, returns acc dst ->
    exists o, returns (fold_left (load_step load src) ks acc) o.
Proof.
  induction ks as [|i ks IH]; intros Hload acc dst Hacc; cbn [fold_left].
  - now exists dst.
  - destruct (Hload i (or_introl eq_refl)) as (x & Hx).
    destruct (load_step_returns i Hacc Hx) as (dst' & Hstep).
    apply (IH (fun j Hj => Hload j (or_intror Hj)) _ dst' Hstep).
Qed.

(** What a loop leaves without a mark is an object, and its properties are
    nodes that [load] returned. *)
Lemma load_loop_inv (Q : N -> Prop) ks :
  (forall d node, load d = Ret (Some node) -> Q node) ->
  forall dst o,
    fold_left (load_step load src) ks (Ret dst) = Ret o ->
    NoDup (keys dst) ->
    (forall k v, In (k, v) dst -> Q v) ->
    NoDup (keys o) /\ (forall k v, In (k, v) o -> Q v).
Proof.
  intros HQ. induction ks as [|i ks IH]; intros dst o; cbn [fold_left].
  - intros [= ->]. tauto.
  - rewrite load_step_Ret.
    destruct (load (entry src i)) as [[node|]|msg|[node|]] eqn:Hx.
    + destruct (set dst i node) as [dst'|dst' pr] eqn:Hset.
      * intros Ho Hnd Hdst.
        assert (dst' = put dst i node).
        { unfold set in Hset. destruct (get dst i);
            [congruence|destruct (String.eqb i "__proto__"); congruence]. }
        subst dst'. apply (IH _ _ Ho).
        -- now apply NoDup_put.
        -- intros k v I. destruct (In_put _ _ _ _ I) as [I'|[= -> ->]].
           ++ now apply (Hdst k).
           ++ now apply (HQ _ _ Hx).
      * rewrite load_loop_Polluted. intros H. now apply pollute_Ret in H.
    + apply IH.
    + rewrite load_step_Throw. discriminate.
    + destruct (set dst i node); rewrite load_loop_Polluted; intros H;
        now apply pollute_Ret in H.
    + rewrite load_loop_Polluted. intros H. now apply pollute_Ret in H.
Qed.

(** With keys that are not array indices, the loop adds its properties in
    the order in which it goes over the keys. *)
Lemma load_loop_keys ks : forall dst o,
  NoDup ks ->
  (forall k, In k ks -> ~ In k (keys dst)) ->
  (forall k, In k ks -> array_index k = None) ->
  fold_left (load_step load src) ks (Ret dst) = Ret o ->
  keys o = keys dst ++ filter (keeps load src) ks.
Proof.
  induction ks as [|i ks IH]; intros dst o Hnd Hfresh Hplain;
    cbn [fold_left].
  - intros [= ->]. simpl. now rewrite app_nil_r.
  - inversion Hnd as [|? ? Hi Hnd']; subst.
    assert (Hplain' : forall k, In k ks -> array_index k = None)
      by (intros k Hk; apply Hplain; now right).
    rewrite load_step_Ret. simpl. unfold keeps at 1.
    destruct (load (entry src i)) as [[node|]|msg|[node|]] eqn:Hl.
    + assert (Hgi : get dst i = None)
        by (apply get_None, Hfresh; now left).
      unfold set. rewrite Hgi.
      destruct (String.eqb i "__proto__").
      * rewrite load_loop_Polluted. intros H. now apply pollute_Ret in H.
      * intros Ho.
        assert (Hput : put dst i node = dst ++ [(i, node)])
          by (apply put_new_plain; [exact Hgi|apply Hplain; now left]).
        rewrite Hput in Ho.
        assert (Hfresh' : forall k, In k ks ->
                                    ~ In k (keys (dst ++ [(i, node)]))).
        { intros k Hk. unfold keys. rewrite map_app, in_app_iff. simpl.
          intros [Hin|[<-|[]]]; [|contradiction].
          apply (Hfresh k); [now right|exact Hin]. }
        rewrite (IH _ _ Hnd' Hfresh' Hplain' Ho).
        unfold keys. rewrite map_app, <- app_assoc. reflexivity.
    + intros Ho. apply (IH _ _ Hnd'); [|exact Hplain'|exact Ho].
      intros k Hk. apply Hfresh. now right.
    + rewrite load_step_Throw. discriminate.
    + destruct (set dst i node); rewrite load_loop_Polluted; intros H;
        now apply pollute_Ret in H.
    + rewrite load_loop_Polluted. intros H. now apply pollute_Ret in H.
Qed.

Hypothesis load_throws : forall x msg, load x = Throw msg -> msg = TypeError.

Lemma load_loop_throws ks : forall dst i msg,
  In i ks -> load (entry src i) = Throw msg ->
  fold_left (load_step load src) ks (Ret dst) = Throw TypeError.
Proof.
  induction ks as [|j ks IH]; intros dst i msg; cbn [fold_left]; [intros []|].
  rewrite load_step_Ret.
  destruct (load (entry src j)) as [[node|]|msg'|[node|]] eqn:Hj.
  - intros [<-|I] Hi; [congruence|].
    destruct (set dst j node); rewrite ?load_loop_Polluted;
      rewrite (IH _ i msg I Hi); reflexivity.
  - intros [<-|I] Hi; [congruence|now apply (IH _ i msg)].
  - intros _ _. rewrite load_step_Throw. f_equal. now apply (load_throws Hj).
  - intros [<-|I] Hi; [congruence|].
    destruct (set dst j node); rewrite load_loop_Polluted;
      rewrite (IH _ i msg I Hi); reflexivity.
  - intros [<-|I] Hi; [congruence|].
    rewrite load_loop_Polluted, (IH _ i msg I Hi). reflexivity.
Qed.

Lemma load_loop_throws_TypeError ks : forall dst msg,
  fold_left (load_step load src) ks (Ret dst) = Throw msg -> msg = TypeError.
Proof.
  induction ks as [|j ks IH]; intros dst msg; cbn [fold_left];
    [discriminate|].
  rewrite load_step_Ret.
  destruct (load (entry src j)) as [[node|]|msg'|[node|]] eqn:Hj.
  - destruct (set dst j node); rewrite ?load_loop_Polluted;
      [apply IH|rewrite pollute_Throw; apply IH].
  - apply IH.
  - rewrite load_step_Throw. intros [= <-]. now apply (load_throws Hj).
  - destruct (set dst j node); rewrite load_loop_Polluted, pollute_Throw;
      apply IH.
  - rewrite load_loop_Polluted, pollute_Throw. apply IH.
Qed.

End Loop.
Lemma ElementPath_load_Some (d : ElementPathDoc) :
  ElementPath_load (Some d) = Ret (mkElementPath (dp_module d) (dp_name d)).
Proof. unfold ElementPath_load. simpl. now destruct (dp_module d), (dp_name d). Qed.

(** On a document that is there, [$FieldType.load] returns. *)
Lemma FieldType_load_at_returns :
  forall d : FieldTypeDoc, exists x, FieldType_load_at d = Ret x.
Proof.
  fix FieldType_load_at_returns 1.
  intros d. destruct d as [ty en eu me un]. simpl.
  destruct ty as [ty|]; [|eauto].
  repeat match goal with
         | |- context [if String.eqb ty ?tag then _ else _] =>
             destruct (String.eqb ty tag); [|]
         end; eauto.
  - destruct en as [e|]; simpl; eauto.
  - destruct eu as [e|]; simpl; eauto.
  - destruct me as [m|]; [|eauto].
    destruct (FieldType_load_at_returns m) as (x & ->). simpl.
    destruct x; simpl; eauto.
  - destruct un; eauto.
Qed.

Lemma Field_load_returns (fd : FieldDoc) :
  exists x, Field_load (Some fd) = Ret x.
Proof.
  unfold Field_load. simpl.
  destruct (df_type fd) as [t|]; simpl; [|eauto].
  destruct (df_isOptional fd), (df_isPathParameter fd); simpl; eauto;
    unfold FieldType_load; simpl;
    destruct (FieldType_load_at_returns t) as ([x|] & ->); simpl; eauto.
Qed.


Lemma Field_load_wellformed (fd : FieldDoc) t o pp :
  FieldType_load (df_type fd) = Ret (Some t) ->
  df_isOptional fd = Some o ->
  df_isPathParameter fd = Some pp ->
  Field_load (Some fd)
  = Ret (Some (mkField (coalesce (df_comment fd) "") (df_config fd)
                 (df_realname fd) o pp (df_fixedValue fd) t)).
Proof.
  unfold Field_load. simpl. intros Ht -> ->.
  destruct (df_type fd) as [td|]; [|discriminate].
  simpl. rewrite Ht. reflexivity.
Qed.


Lemma existsb_keys {V} (o : obj V) k v :
  get o k = Some v -> existsb (String.eqb k) (keys o) = true.
Proof.
  intros Hget. apply existsb_exists. exists k. split; [|apply String.eqb_refl].
  change k with (fst (k, v)). apply in_map. now apply get_In.
Qed.

Lemma existsb_not_keys {V} (o : obj V) k :
  get o k = None -> existsb (String.eqb k) (keys o) = false.
Proof.
  intros Hget. apply get_None in Hget.
  destruct (existsb (String.eqb k) (keys o)) eqn:E; [|reflexivity].
  apply existsb_exists in E. destruct E as (k' & Hin & Heq).
  apply String.eqb_eq in Heq. now subst.
Qed.


Lemma is_key_In {V} (o : obj V) k : is_key o k = true <-> In k (keys o).
Proof.
  unfold is_key. rewrite existsb_exists. split.
  - intros (k' & Hin & Heq). apply String.eqb_eq in Heq. now subst.
  - intros Hin. exists k. split; [exact Hin|apply String.eqb_refl].
Qed.

Lemma load_each_clean {D N} (load : option D -> res (option N)) src o :
  load_each load src [] = Ret o ->
  (forall i, In i (keys src) -> exists x, load (entry src i) = Ret x)
  /\ forall k,
       get o k
       = if is_key src k
         then match load (entry src k) with
              | Ret (Some node) => Some node
              | _ => None
              end
         else None.
Proof.
  intros Ho.
  destruct (load_loop_clean load src (keys src) [] Ho eq_refl)
    as (Hret & Hget & _).
  split; [exact Hret|]. intros k. rewrite Hget. reflexivity.
Qed.



Lemma Entity_load_malformed (d : EntityDoc) :
  de_type d = None \/ de_isAbstract d = None
  \/ de_fieldsLocal d = None \/ de_genericMap d = None ->
  Entity_load (Some d) = Ret None.
Proof.
  unfold Entity_load. simpl.
  destruct (de_type d), (de_isAbstract d), (de_fieldsLocal d),
    (de_genericMap d); simpl; intros [H|[H|[H|H]]];
    try discriminate; reflexivity.
Qed.





(** The same document, by evaluation: the entity has the two fields that
    lack nothing, in the order of the document. *)
Example Entity_load_three_fields :
  Entity_load (Some doc_three_fields)
  = Ret (Some (mkEntity OBJECT "" None false None None None None
                 [("id", field_of TID);
                  ("since", mkField "" None None true false None TDateTime)]
                 [])).
Proof. reflexivity. Qed.


(** A null entry is not a malformed node: reading its [type] throws, and the
    exception leaves the loop. *)
Example Entity_load_null_entry :
  Entity_load
    (Some (mkEntityDoc (Some 0%Z) (Some false)
             (Some [("id", Some (doc_field "TID" (Some false)));
                    ("nothing", None)])
             (Some []) None None None None None None))
  = Throw TypeError.
Proof. reflexivity. Qed.

(** With the key ["__proto__"] the assignment replaces the prototype of
    [fieldsLocal]: the field is not a property of the entity that
    [$Entity.load] returns. *)
Example Entity_load_proto_entry :
  Entity_load
    (Some (mkEntityDoc (Some 0%Z) (Some false)
             (Some [("id", Some (doc_field "TID" (Some false)));
                    ("__proto__", Some (doc_field "TString" (Some false)))])
             (Some []) None None None None None None))
  = Polluted (Some (mkEntity OBJECT "" None false None None None None
                      [("id", field_of TID)] [])).
Proof. reflexivity. Qed.

(** What [load] builds without a mark is made of objects with one property
    per key. *)
Lemma Module_load_wf d mo :
  Module_load d = Ret (Some mo) ->
  NoDup (keys (entities mo)) /\ NoDup (keys (enums mo)).
Proof.
  unfold Module_load. destruct d as [d|]; [|discriminate]. simpl.
  destruct (dm_entities d) as [es|], (dm_enums d) as [ns|]; simpl;
    try discriminate.
  intros H. apply bind_Ret_inv in H. destruct H as (entities & He & H).
  apply bind_Ret_inv in H. destruct H as (enums & Hn & [= <-]).
  unfold load_each in He, Hn. simpl. split.
  - apply (load_loop_inv Entity_load es (fun _ => True) (keys es)
             (fun _ _ _ => I) [] He); [constructor | intros ? ? []].
  - apply (load_loop_inv Enum_load ns (fun _ => True) (keys ns)
             (fun _ _ _ => I) [] Hn); [constructor | intros ? ? []].
Qed.

Lemma Project_load_wf d P :
  Project_load d = Ret (Some P) -> wf_project P.
Proof.
  unfold Project_load. destruct d as [d|]; [|discriminate]. simpl.
  destruct (dj_name d), (dj_version d), (dj_targetPackage d),
    (dj_modules d) as [ms|]; simpl; try discriminate.
  intros H. apply bind_Ret_inv in H. destruct H as (modules & Hm & [= <-]).
  unfold load_each in Hm. unfold wf_project. simpl.
  apply (load_loop_inv Module_load ms
           (fun mo => NoDup (keys (entities mo)) /\ NoDup (keys (enums mo)))
           (keys ms) Module_load_wf [] Hm);
    [constructor | intros ? ? []].
Qed.

(** C7, as the code has it. On a project whose objects have one property per
    key (every project that [$Project.load] returns is one),
    [flatEntities()] and [flatEnums()] return one pair per entity and per
    enum of every module: the pairs of the elements of each module, no path
    twice, a pair being in the result exactly when its node is stored under
    the module key and the element key of its path.  Loading the scenario
    document completed with [name], [version], [targetPackage] and the
    [enums] of the module gives a project whose [flatEntities()] has exactly
    one pair, with path [{module: "m", name: "A"}]. *)
Theorem flatEntities_flatEnums_spec :
  forall P : Project,
    wf_project P ->
    flatEntities P = pairs_of entities P
    /\ flatEnums P = pairs_of enums P
    /\ NoDup (map fst (flatEntities P))
    /\ NoDup (map fst (flatEnums P))
    /\ (forall p e,
          In (p, e) (flatEntities P)
          <-> exists m n mo,
                p = mkElementPath (Some m) (Some n)
                /\ get (modules P) m = Some mo
                /\ get (entities mo) n = Some e)
    /\ (forall p e,
          In (p, e) (flatEnums P)
          <-> exists m n mo,
                p = mkElementPath (Some m) (Some n)
                /\ get (modules P) m = Some mo
                /\ get (enums mo) n = Some e)
    /\ (exists P0 A,
          Project_load (Some doc_scenario_complete) = Ret (Some P0)
          /\ wf_project P0
          /\ flatEntities P0 = [(mkElementPath (Some "m") (Some "A"), A)]
          /\ flatEnums P0 = []).
Proof.
  intros P (Hnd & Hin).
  assert (He : forall m mo, In (m, mo) (modules P) ->
                            NoDup (keys (entities mo)))
    by (intros m mo I; now apply (Hin m mo)).
  assert (Hn : forall m mo, In (m, mo) (modules P) ->
                            NoDup (keys (enums mo)))
    by (intros m mo I; now apply (Hin m mo)).
  assert (HfE : flatEntities P = pairs_of entities P)
    by (apply (flat_pairs entities P Hnd He)).
  assert (HfN : flatEnums P = pairs_of enums P)
    by (apply (flat_pairs enums P Hnd Hn)).
  rewrite HfE, HfN.
  repeat split;
    try (now apply NoDup_pairs_of);
    try (now apply In_pairs_of);
    try (intros H; now apply (In_pairs_of entities P p e Hnd He));
    try (intros H; now apply (In_pairs_of enums P p e Hnd Hn)).
  eexists. eexists. split; [reflexivity|].
  split; [|split; reflexivity].
  now apply (Project_load_wf (Some doc_scenario_complete)).
Qed.

Lemma family_wf : wf_project family.
Proof.
  split.
  - simpl. repeat constructor. intros [].
  - simpl. intros m mo [[= <- <-]|[]]. simpl. split.
    + repeat constructor; simpl; intuition discriminate.
    + constructor.
Defined.

(** The hypothesis of C7 at the project [family]. *)
Lemma flatEntities_flatEnums_spec_witness :
  flatEntities family
  = [(mkElementPath (Some "m") (Some "Parent"), Parent);
     (mkElementPath (Some "m") (Some "Child"), Child)].
Proof.
  rewrite (proj1 (flatEntities_flatEnums_spec family_wf)). reflexivity.
Defined.

(** C7 as stated fails on its scenario: the document as written has no
    [name], [version] and [targetPackage], so [$Project.load] returns null
    and there is no project to flatten; with the three of them, the module
    [m], which has no [enums], is dropped and [flatEntities()] is empty. *)
Lemma Project_load_scenario_null :
  Project_load (Some doc_scenario) = Ret None
  /\ Project_load (Some doc_scenario_named)
     = Ret (Some (mkProject "p" "1" "pkg" []))
  /\ flatEntities (mkProject "p" "1" "pkg" []) = [].
Proof. repeat split. Qed.

(** C10. On every document [$ElementPath.load] returns a path: a [module] or
    [name] that is missing or null is a null coordinate of that path, never
    a null result.  So the test of the path against null in
    [$FieldType.load] never fires: a [TObject] ([TEnum]) document whose
    [entity] ([enu]) is there always loads, be the path empty.  Every other
    loader answers null on a document that lacks its required fields. *)
Theorem ElementPath_load_never_null :
  forall d : ElementPathDoc,
    ElementPath_load (Some d)
    = Ret (mkElementPath (dp_module d) (dp_name d))
    /\ ElementPath_load (Some (mkElementPathDoc None None))
       = Ret (mkElementPath None None)
    /\ (forall enu member unknown,
          FieldType_load
            (Some (mkFieldTypeDoc (Some "TObject") (Some d) enu member unknown))
          = Ret (Some (TObject (mkElementPath (dp_module d) (dp_name d)))))
    /\ (forall entity member unknown,
          FieldType_load
            (Some (mkFieldTypeDoc (Some "TEnum") entity (Some d) member unknown))
          = Ret (Some (TEnum (mkElementPath (dp_module d) (dp_name d)))))
    /\ EnumItem_load (Some doc_no_item) = Ret None
    /\ Enum_load (Some doc_no_enum) = Ret None
    /\ FieldType_load (Some doc_no_type) = Ret None
    /\ Field_load (Some doc_no_field) = Ret None
    /\ Entity_load (Some doc_no_entity) = Ret None
    /\ Module_load (Some doc_no_module) = Ret None
    /\ Project_load (Some doc_no_project) = Ret None.
Proof.
  intros d. split; [apply ElementPath_load_Some|].
  split; [reflexivity|].
  split; [|split; [|repeat split]].
  - intros enu member unknown. unfold FieldType_load. simpl.
    now destruct (dp_module d), (dp_name d).
  - intros entity member unknown. unfold FieldType_load. simpl.
    now destruct (dp_module d), (dp_name d).
Qed.

(** The callers of [$ElementPath.load] test their argument with [notNU]
    first; on [null] itself the read of [data.module] throws. *)
Example ElementPath_load_null : ElementPath_load None = Throw TypeError.
Proof. reflexivity. Qed.

(* ================================================================= *)
(** * Further properties of the code *)

(** ** util.ts *)

(** X1. [notNU] is true exactly when every argument is there, and a call on
    several arguments is the conjunction of the calls on its parts. *)
Theorem notNU_all_present :
  forall args more : list any,
    (notNU args = true <-> forall a, In a args -> a = Present)
    /\ notNU (args ++ more) = notNU args && notNU more.
Proof.
  intros args more. split.
  - induction args as [|[|] r IH]; simpl.
    + split; [intros _ a []|reflexivity].
    + split; [discriminate|].
      intros H. discriminate (H Nullish (or_introl eq_refl)).
    + rewrite IH. split.
      * intros H a [<-|I]; [reflexivity|now apply H].
      * intros H a I. apply H. now right.
  - induction args as [|[|] r IH]; simpl; [reflexivity|reflexivity|exact IH].
Qed.

(** ** [$ElementPath] *)

Lemma asEntityOf_coordinates p q P :
  module p = module q -> name p = name q ->
  asEntityOf p P = asEntityOf q P /\ asEnumOf p P = asEnumOf q P.
Proof.
  intros Hm Hn. unfold asEntityOf, asEnumOf. rewrite Hm, Hn. now split.
Qed.

(** X2. [equals] is an equivalence on paths, and paths that are [equals] resolve
    to the same entity and to the same enum in every project. *)
Theorem ElementPath_equals_equivalence :
  forall p q r : ElementPath,
    ElementPath_equals p (Some p) = true
    /\ ElementPath_equals p (Some q) = ElementPath_equals q (Some p)
    /\ (ElementPath_equals p (Some q) = true ->
        ElementPath_equals q (Some r) = true ->
        ElementPath_equals p (Some r) = true)
    /\ (ElementPath_equals p (Some q) = true ->
        forall P, asEntityOf p P = asEntityOf q P
                  /\ asEnumOf p P = asEnumOf q P).
Proof.
  intros p q r. split; [now apply ElementPath_equals_iff|]. split; [|split].
  - destruct (ElementPath_equals p (Some q)) eqn:Hpq,
             (ElementPath_equals q (Some p)) eqn:Hqp; try reflexivity.
    + apply ElementPath_equals_iff in Hpq. subst q.
      rewrite (proj2 (ElementPath_equals_iff p p) eq_refl) in Hqp.
      discriminate.
    + apply ElementPath_equals_iff in Hqp. subst q.
      rewrite (proj2 (ElementPath_equals_iff p p) eq_refl) in Hpq.
      discriminate.
  - intros Hpq Hqr. apply ElementPath_equals_iff in Hpq, Hqr.
    apply ElementPath_equals_iff. congruence.
  - intros Hpq P. apply ElementPath_equals_iff in Hpq. subst q.
    now apply asEntityOf_coordinates.
Qed.

Lemma ElementPath_equals_equivalence_witness :
  asEntityOf (mkElementPath (Some "m") (Some "Parent")) (Some family)
  = asEntityOf (mkElementPath (Some "m") (Some "Parent")) (Some family)
  /\ ElementPath_equals (mkElementPath (Some "m") None)
       (Some (mkElementPath (Some "m") None)) = true.
Proof.
  pose proof (ElementPath_equals_equivalence
                (mkElementPath (Some "m") (Some "Parent"))
                (mkElementPath (Some "m") (Some "Parent"))
                (mkElementPath (Some "m") (Some "Parent"))) as (_ & _ & _ & H).
  split.
  - apply (H eq_refl (Some family)).
  - apply (proj1 (proj2 (proj2 (ElementPath_equals_equivalence
                                  (mkElementPath (Some "m") None)
                                  (mkElementPath (Some "m") None)
                                  (mkElementPath (Some "m") None)))));
      reflexivity.
Defined.

(** ** [$Enum] *)

Lemma push_entries {V} (o : obj V) (acc : list (string * V)) :
  fold_left (fun result kv => result ++ [(fst kv, snd kv)]) o acc = acc ++ o.
Proof.
  revert acc. induction o as [|[k v] o IH]; intros acc; simpl.
  - now rewrite app_nil_r.
  - rewrite IH, <- app_assoc. reflexivity.
Qed.

(** X3. [flat()] lists every item of the enum once, under its name, in the order
    of the properties; a pair is in the list exactly when the item is stored
    under the name. *)
Theorem Enum_flat_entries :
  forall e : Enum,
    NoDup (keys (enumMap e)) ->
    Enum_flat e = enumMap e
    /\ NoDup (map fst (Enum_flat e))
    /\ List.length (Enum_flat e) = List.length (keys (enumMap e))
    /\ (forall n it, In (n, it) (Enum_flat e) <-> get (enumMap e) n = Some it).
Proof.
  intros e Hnd.
  assert (Hflat : Enum_flat e = enumMap e).
  { unfold Enum_flat. rewrite forIn_entries by exact Hnd.
    apply (push_entries (enumMap e) []). }
  rewrite Hflat. split; [reflexivity|]. split; [exact Hnd|].
  split; [unfold keys; now rewrite length_map|].
  intros n it. split; [now apply In_get | apply get_In].
Qed.

Lemma enum_a3_b1_c1_wf : NoDup (keys (enumMap enum_a3_b1_c1)).
Proof. simpl. repeat constructor; simpl; intuition discriminate. Defined.

Lemma Enum_flat_entries_witness :
  Enum_flat enum_a3_b1_c1
  = [("a", item_of 3); ("b", item_of 1); ("c", item_of 1)].
Proof.
  apply (proj1 (Enum_flat_entries enum_a3_b1_c1 enum_a3_b1_c1_wf)).
Defined.




(** A new name that is an array index is enumerated before the names that
    are not: with the value of the first item it becomes the first.  And
    under ["__proto__"] the item is no property at all. *)
Example firstName_with_index_item :
  option_map firstName (with_item enum_a3_b1_c1 "0" (item_of 1))
  = Some (Some "0")
  /\ option_map Enum_flat (with_item enum_a3_b1_c1 "0" (item_of 1))
     = Some [("0", item_of 1); ("a", item_of 3); ("b", item_of 1);
             ("c", item_of 1)]
  /\ with_item enum_a3_b1_c1 "__proto__" (item_of 0) = None.
Proof. repeat split. Qed.

(** ** [$FieldType] *)

(** X5. [equals] is symmetric and transitive, and two field types are [equals]
    exactly when they are the same variant with the same payload. *)
Theorem FieldType_equals_equivalence :
  forall A B C : FieldType,
    (FieldType_equals A (Some B) = true <-> A = B)
    /\ FieldType_equals A (Some B) = FieldType_equals B (Some A)
    /\ (FieldType_equals A (Some B) = true ->
        FieldType_equals B (Some C) = true ->
        FieldType_equals A (Some C) = true).
Proof.
  intros A B C. split; [apply FieldType_equals_iff|]. split.
  - destruct (FieldType_equals A (Some B)) eqn:HAB,
             (FieldType_equals B (Some A)) eqn:HBA; try reflexivity.
    + apply FieldType_equals_iff in HAB. subst B.
      rewrite (proj2 (FieldType_equals_iff A A) eq_refl) in HBA.
      discriminate.
    + apply FieldType_equals_iff in HBA. subst B.
      rewrite (proj2 (FieldType_equals_iff A A) eq_refl) in HAB.
      discriminate.
  - intros HAB HBC. apply FieldType_equals_iff in HAB, HBC.
    apply FieldType_equals_iff. congruence.
Qed.

Lemma FieldType_equals_equivalence_witness :
  FieldType_equals (TList TID) (Some (TList TID)) = true.
Proof.
  apply (proj2 (proj2 (FieldType_equals_equivalence
                         (TList TID) (TList TID) (TList TID))));
    reflexivity.
Defined.

Lemma strip_lists_not_list B : type_of (strip_lists B) <> "TList".
Proof. induction B; simpl; try discriminate. exact IHB. Qed.

Lemma strip_lists_id B : type_of B <> "TList" -> strip_lists B = B.
Proof. destruct B; simpl; try reflexivity. intros H. now elim H. Qed.

Lemma equalsEvenInList_strip A B :
  type_of A <> "TList" ->
  equalsEvenInList A (Some B)
  = Ret (FieldType_equals A (Some (strip_lists B))).
Proof.
  intros HA. apply String.eqb_neq in HA.
  unfold equalsEvenInList. rewrite HA. simpl.
  now apply equalsEvenInList_at_strip.
Qed.

(** X6. For a receiver [A] that is not a list, [A.equalsEvenInList(B)] never
    throws; it is true exactly when [B], under its lists, is [A]; it does
    not change when [B] is put in one more list; and on a [B] that is not a
    list it is [A.equals(B)]. *)
Theorem equalsEvenInList_transparent :
  forall A B : FieldType,
    type_of A <> "TList" ->
    (exists b, equalsEvenInList A (Some B) = Ret b)
    /\ (equalsEvenInList A (Some B) = Ret true <-> strip_lists B = A)
    /\ equalsEvenInList A (Some (TList B)) = equalsEvenInList A (Some B)
    /\ (type_of B <> "TList" ->
        equalsEvenInList A (Some B) = Ret (FieldType_equals A (Some B))).
Proof.
  intros A B HA.
  rewrite (equalsEvenInList_strip A (TList B) HA),
          (equalsEvenInList_strip A B HA). simpl.
  split; [eauto|]. split; [|split; [reflexivity|]].
  - split.
    + intros [= H]. apply FieldType_equals_iff in H. congruence.
    + intros H. f_equal. apply FieldType_equals_iff. congruence.
  - intros HB. now rewrite (strip_lists_id B HB).
Qed.

Lemma equalsEvenInList_transparent_witness :
  equalsEvenInList TID (Some (TList (TList TID)))
  = equalsEvenInList TID (Some (TList TID)).
Proof.
  apply (proj1 (proj2 (proj2 (@equalsEvenInList_transparent
                                TID (TList TID) ltac:(simpl; discriminate))))).
Defined.

Lemma FieldType_load_at_doc_of_type t :
  FieldType_load_at (doc_of_type t) = Ret (Some t).
Proof.
  induction t as [p|p|m IH|u| | | | | | | | |]; try reflexivity.
  - destruct p as [m n]. simpl. now destruct m, n.
  - destruct p as [m n]. simpl. now destruct m, n.
  - simpl. rewrite IH. reflexivity.
Qed.

(** X7. Round trip: loading the document that has the properties of a field type
    gives that field type back, whatever the nesting of lists and with paths
    whose coordinates are null. *)
Theorem FieldType_load_doc_of_type :
  forall (t : FieldType) (p : ElementPath),
    FieldType_load (Some (doc_of_type t)) = Ret (Some t)
    /\ ElementPath_load (Some (doc_of_path p)) = Ret p.
Proof.
  intros t p. split.
  - unfold FieldType_load. simpl. apply FieldType_load_at_doc_of_type.
  - rewrite ElementPath_load_Some. now destruct p.
Qed.

(** X8. What a document loads to is what the document says: the variant named by
    its [type], with the payload that the property of that variant holds.
    On a document that is there [$FieldType.load] never throws, and a
    [type] without a [case] gives null. *)
Theorem FieldType_load_sound :
  forall ty en eu me un,
    (exists x, FieldType_load (Some (mkFieldTypeDoc ty en eu me un)) = Ret x)
    /\ (forall t,
          FieldType_load (Some (mkFieldTypeDoc ty en eu me un)) = Ret (Some t) ->
          ty = Some (type_of t)
          /\ match t with
             | TObject p =>
                 exists e, en = Some e
                           /\ p = mkElementPath (dp_module e) (dp_name e)
             | TEnum p =>
                 exists e, eu = Some e
                           /\ p = mkElementPath (dp_module e) (dp_name e)
             | TList m =>
                 exists d, me = Some d /\ FieldType_load me = Ret (Some m)
             | TUnknown u => un = Some u
             | _ => True
             end)
    /\ (forall tag, ty = Some tag -> ~ In tag known_tags ->
                    FieldType_load (Some (mkFieldTypeDoc ty en eu me un))
                    = Ret None).
Proof.
  intros ty en eu me un. unfold FieldType_load. simpl deref. cbn [bind].
  split; [apply FieldType_load_at_returns|]. split.
  - intros t. simpl. destruct ty as [ty|]; [|discriminate].
    repeat match goal with
           | |- context [if String.eqb ty ?tag then _ else _] =>
               destruct (String.eqb_spec ty tag) as [->|_];
               [try (intros [= <-]; now split)|]
           end; try discriminate.
    + destruct en as [e|]; simpl; [|discriminate].
      intros [= <-]. split; [reflexivity|]. exists e. split; [reflexivity|].
      now destruct (dp_module e), (dp_name e).
    + destruct eu as [e|]; simpl; [|discriminate].
      intros [= <-]. split; [reflexivity|]. exists e. split; [reflexivity|].
      now destruct (dp_module e), (dp_name e).
    + destruct me as [d|]; [|discriminate].
      destruct (FieldType_load_at d) as [[m|]|msg|[m|]] eqn:Hd; simpl;
        try discriminate.
      intros [= <-]. split; [reflexivity|]. exists d. split; [reflexivity|].
      simpl. exact Hd.
    + destruct un as [u|]; [|discriminate].
      intros [= <-]. now split.
  - intros tag -> Hin. simpl.
    repeat match goal with
           | |- context [if String.eqb tag ?known then _ else _] =>
               destruct (String.eqb_spec tag known) as [->|_];
               [exfalso; apply Hin; simpl; tauto|]
           end.
    reflexivity.
Qed.

Lemma FieldType_load_sound_witness :
  FieldType_load (Some (mkFieldTypeDoc (Some "TFloat") None None None None))
  = Ret None.
Proof.
  apply (proj2 (proj2 (FieldType_load_sound
                         (Some "TFloat") None None None None))
           "TFloat" eq_refl).
  simpl. intuition discriminate.
Defined.

(** ** [$Field] *)

(** X9. [$Field.load] returns a field exactly when [type] loads to a field type
    and the two flags are there; the field then has that type, the flags of
    the document, and ["" ] for a missing comment.  On a document that is
    there it never throws; on null it throws. *)
Theorem Field_load_iff :
  forall (fd : FieldDoc) (f : Field),
    (Field_load (Some fd) = Ret (Some f)
     <-> exists t o pp,
           FieldType_load (df_type fd) = Ret (Some t)
           /\ df_isOptional fd = Some o
           /\ df_isPathParameter fd = Some pp
           /\ f = mkField (coalesce (df_comment fd) "") (df_config fd)
                    (df_realname fd) o pp (df_fixedValue fd) t)
    /\ (exists x, Field_load (Some fd) = Ret x)
    /\ Field_load None = Throw TypeError.
Proof.
  intros fd f. split; [|split; [apply Field_load_returns|reflexivity]].
  split.
  - unfold Field_load. simpl.
    destruct (df_type fd) as [td|] eqn:Htd; simpl; [|discriminate].
    destruct (df_isOptional fd) as [o|]; simpl; [|discriminate].
    destruct (df_isPathParameter fd) as [pp|]; simpl; [|discriminate].
    destruct (FieldType_load (Some td)) as [[t|]|msg|[t|]] eqn:Ht; simpl;
      try discriminate.
    intros [= <-]. exists t, o, pp. repeat split; reflexivity.
  - intros (t & o & pp & Ht & Ho & Hpp & ->).
    now apply Field_load_wellformed.
Qed.

(** ** The loop of the loaders *)

Lemma bind_returns_inv {A B} (m : res A) (f : A -> res B) b :
  returns (bind m f) b -> exists a, returns m a /\ returns (f a) b.
Proof.
  destruct m as [a|msg|a]; simpl.
  - intros H. exists a. split; [now left|exact H].
  - intros [H|H]; discriminate.
  - intros H. apply (proj1 (returns_pollute _ _)) in H. exists a. split; [now right|exact H].
Qed.

Lemma returns_Ret {A} (a b : A) : returns (Ret a) b -> a = b.
Proof. intros [[= ->]|[=]]. reflexivity. Qed.

Lemma set_cases {V} (o : obj V) k v :
  get o "__proto__" = None ->
  (k <> "__proto__" /\ set o k v = Property (put o k v))
  \/ (k = "__proto__" /\ set o k v = Prototype o v).
Proof.
  intros Hp. destruct (String.eqb_spec k "__proto__") as [->|Hne].
  - right. split; [reflexivity|now apply set_proto].
  - left. split; [exact Hne|now apply set_plain].
Qed.

Section LoopOutcome.

Context {D N : Type}.
Variable load : option D -> res (option N).
Variable src : obj (option D).

(** The own properties of what the loop returns, with or without a mark:
    under a key other than ["__proto__"], the node that [load] made of the
    entry; under ["__proto__"], none. *)
Lemma load_loop_own ks : forall dst o,
  returns (fold_left (load_step load src) ks (Ret dst)) o ->
  get dst "__proto__" = None ->
  (forall k, k <> "__proto__" ->
     get o k
     = if existsb (String.eqb k) ks
       then match load (entry src k) with
            | Ret (Some node) | Polluted (Some node) => Some node
            | _ => get dst k
            end
       else get dst k)
  /\ get o "__proto__" = None.
Proof.
  induction ks as [|i ks IH]; intros dst o; cbn [fold_left].
  - intros H Hp. apply returns_Ret in H. subst o.
    split; [reflexivity|exact Hp].
  - rewrite load_step_Ret. intros H Hp.
    assert (Hnode : forall node,
               (load (entry src i) = Ret (Some node)
                \/ load (entry src i) = Polluted (Some node)) ->
               forall dst', (set dst i node = Property dst'
                             \/ set dst i node = Prototype dst' node) ->
               returns (fold_left (load_step load src) ks (Ret dst')) o ->
               (forall k, k <> "__proto__" ->
                  get o k
                  = if existsb (String.eqb k) (i :: ks)
                    then match load (entry src k) with
                         | Ret (Some node) | Polluted (Some node) => Some node
                         | _ => get dst k
                         end
                    else get dst k)
               /\ get o "__proto__" = None).
    { intros node Hi dst' Hset H'.
      destruct (set_cases dst i node Hp) as [(Hne & Hs)|(-> & Hs)];
        rewrite Hs in Hset;
        destruct Hset as [Hset|Hset]; try discriminate;
        injection Hset as <-.
      - assert (Hp' : get (put dst i node) "__proto__" = None).
        { rewrite get_put. destruct (String.eqb_spec "__proto__" i);
            [congruence|exact Hp]. }
        destruct (IH _ _ H' Hp') as (Hget & Hpo).
        split; [|exact Hpo]. intros k Hk. rewrite (Hget k Hk).
        cbn [existsb]. rewrite !get_put.
        destruct (String.eqb_spec k i) as [->|Hki]; simpl.
        + destruct Hi as [-> | ->]; now destruct (existsb _ ks).
        + reflexivity.
      - destruct (IH _ _ H' Hp) as (Hget & Hpo).
        split; [|exact Hpo]. intros k Hk. rewrite (Hget k Hk).
        cbn [existsb].
        destruct (String.eqb_spec k "__proto__") as [->|_];
          [contradiction|reflexivity]. }
    assert (Hnull : load (entry src i) = Ret None
                    \/ load (entry src i) = Polluted None ->
               returns (fold_left (load_step load src) ks (Ret dst)) o ->
               (forall k, k <> "__proto__" ->
                  get o k
                  = if existsb (String.eqb k) (i :: ks)
                    then match load (entry src k) with
                         | Ret (Some node) | Polluted (Some node) => Some node
                         | _ => get dst k
                         end
                    else get dst k)
               /\ get o "__proto__" = None).
    { intros Hi H'. destruct (IH _ _ H' Hp) as (Hget & Hpo).
      split; [|exact Hpo]. intros k Hk. rewrite (Hget k Hk).
      cbn [existsb].
      destruct (String.eqb_spec k i) as [->|Hki]; simpl; [|reflexivity].
      destruct Hi as [-> | ->]; now destruct (existsb _ ks). }
    destruct (load (entry src i)) as [[node|]|msg|[node|]] eqn:Hi.
    + destruct (set dst i node) as [dst'|dst' pr] eqn:Hset.
      * apply (Hnode node (or_introl eq_refl) dst' (or_introl Hset) H).
      * rewrite load_loop_Polluted in H. apply (proj1 (returns_pollute _ _)) in H.
        assert (pr = node).
        { destruct (set_cases dst i node Hp) as [(_ & Hs)|(_ & Hs)];
            rewrite Hs in Hset; [discriminate|now injection Hset]. }
        subst pr.
        apply (Hnode node (or_introl eq_refl) dst' (or_intror Hset) H).
    + apply Hnull; [now left|exact H].
    + rewrite load_step_Throw in H. destruct H; discriminate.
    + destruct (set dst i node) as [dst'|dst' pr] eqn:Hset;
        rewrite load_loop_Polluted in H;
        apply (proj1 (returns_pollute _ _)) in H.
      * apply (Hnode node (or_intror eq_refl) dst' (or_introl Hset) H).
      * assert (pr = node).
        { destruct (set_cases dst i node Hp) as [(_ & Hs)|(_ & Hs)];
            rewrite Hs in Hset; [discriminate|now injection Hset]. }
        subst pr.
        apply (Hnode node (or_intror eq_refl) dst' (or_intror Hset) H).
    + rewrite load_loop_Polluted in H. apply (proj1 (returns_pollute _ _)) in H.
      apply Hnull; [now right|exact H].
Qed.

Lemma load_each_own o :
  returns (load_each load src []) o ->
  (forall k, k <> "__proto__" ->
     get o k
     = if is_key src k
       then match load (entry src k) with
            | Ret (Some node) | Polluted (Some node) => Some node
            | _ => None
            end
       else None)
  /\ get o "__proto__" = None.
Proof.
  intros Ho. apply (load_loop_own (keys src) [] Ho eq_refl).
Qed.

End LoopOutcome.

(** X10. The loop of a loader keeps the order of the document: when it
    returns without a mark from a collection whose keys are distinct and
    none an array index, the keys of what it builds are the keys of the
    collection under which [load] returns a node, in the order of the
    collection. *)
Theorem load_each_keeps_order :
  forall D N (load : option D -> res (option N)) (src : obj (option D)) o,
    NoDup (keys src) ->
    (forall k, In k (keys src) -> array_index k = None) ->
    load_each load src [] = Ret o ->
    keys o = filter (keeps load src) (keys src)
    /\ NoDup (keys o).
Proof.
  intros D N load src o Hnd Hplain Ho.
  assert (Hk : keys o = filter (keeps load src) (keys src)).
  { apply (@load_loop_keys _ _ load src (keys src) [] o Hnd
             (fun _ _ H => H) Hplain Ho). }
  split; [exact Hk|]. rewrite Hk. now apply NoDup_filter.
Qed.

Lemma load_each_keeps_order_witness :
  keys [("id", field_of TID);
        ("since", mkField "" None None true false None TDateTime)]
  = filter (keeps Field_load
              [("id", Some (doc_field "TID" (Some false)));
               ("broken", Some (doc_field "TString" None));
               ("since", Some (doc_field "TDateTime" (Some true)))])
      ["id"; "broken"; "since"].
Proof.
  assert (Hnd : NoDup ["id"; "broken"; "since"])
    by (repeat constructor; simpl; intuition discriminate).
  assert (Hplain : forall k, In k ["id"; "broken"; "since"] ->
                             array_index k = None)
    by (simpl; intros k [<-|[<-|[<-|[]]]]; reflexivity).
  apply (proj1 (@load_each_keeps_order _ _ Field_load
                  [("id", Some (doc_field "TID" (Some false)));
                   ("broken", Some (doc_field "TString" None));
                   ("since", Some (doc_field "TDateTime" (Some true)))]
                  _ Hnd Hplain eq_refl)).
Defined.

(** ** [$Entity.load], [$Enum.load], [$Module.load], [$Project.load] *)

Lemma entry_Some {D} (src : obj (option D)) k d :
  entry src k = Some d <-> get src k = Some (Some d).
Proof.
  unfold entry. destruct (get src k) as [[x|]|]; split; congruence.
Qed.

Lemma has_null_entry_iff {D} (src : obj (option D)) :
  has_null_entry src = true <-> exists k, get src k = Some None.
Proof.
  unfold has_null_entry. rewrite existsb_exists. split.
  - intros (k & Hk & Hnull). exists k. unfold entry in Hnull.
    destruct (get src k) as [[x|]|] eqn:Hget; try discriminate; [reflexivity|].
    apply get_None in Hget. contradiction.
  - intros (k & Hget). exists k. split.
    + change k with (fst (k, @None D)). apply in_map. now apply get_In.
    + unfold entry. now rewrite Hget.
Qed.

Lemma Field_load_throws x msg : Field_load x = Throw msg -> msg = TypeError.
Proof.
  destruct x as [fd|].
  - destruct (Field_load_returns fd) as (y & ->). discriminate.
  - now intros [= <-].
Qed.

Lemma fields_loop_outcome (src : obj (option FieldDoc)) :
  if has_null_entry src
  then load_each Field_load src [] = Throw TypeError
  else exists o, returns (load_each Field_load src []) o
                 /\ (~ In "__proto__" (keys src) ->
                     load_each Field_load src [] = Ret o).
Proof.
  destruct (has_null_entry src) eqn:Hnull.
  - apply has_null_entry_iff in Hnull. destruct Hnull as (k & Hget).
    apply (@load_loop_throws _ _ Field_load src Field_load_throws
             (keys src) [] k TypeError).
    + change k with (fst (k, @None FieldDoc)). apply in_map. now apply get_In.
    + unfold entry. now rewrite Hget.
  - assert (Hret : forall i, In i (keys src) ->
                             exists x, Field_load (entry src i) = Ret x).
    { intros i Hi. destruct (entry src i) as [fd|] eqn:He;
        [apply Field_load_returns|].
      exfalso. unfold has_null_entry in Hnull.
      assert (Ht : existsb
                     (fun k => match entry src k with
                               | None => true
                               | Some _ => false
                               end) (keys src) = true)
        by (apply existsb_exists; exists i; split; [exact Hi|now rewrite He]).
      congruence. }
    destruct (in_dec string_dec "__proto__" (keys src)) as [Hin|Hout].
    + assert (Hret' : forall i, In i (keys src) ->
                exists x, returns (Field_load (entry src i)) x).
      { intros i Hi. destruct (Hret i Hi) as (x & Hx). exists x. now left. }
      destruct (@load_loop_returns _ _ Field_load src (keys src) Hret'
                  (Ret []) [] (or_introl eq_refl)) as (o & Ho).
      exists o. split; [exact Ho|]. intros H. contradiction.
    + destruct (load_loop_Ret Field_load src (keys src) Hret Hout [])
        as (o & Ho).
      exists o. split; [now left|]. intros _. exact Ho.
Qed.

(** X11. The three outcomes of [$Entity.load] on a document that is there: null
    exactly when [type], [isAbstract], [fieldsLocal] or [genericMap] is
    missing; otherwise a [TypeError] when an entry of [fieldsLocal] or
    [genericMap] is null, and an entity when none is, with no prototype
    replaced when neither has the key ["__proto__"]. *)
Theorem Entity_load_outcomes :
  forall d : EntityDoc,
    (Entity_load (Some d) = Ret None
     <-> de_type d = None \/ de_isAbstract d = None
         \/ de_fieldsLocal d = None \/ de_genericMap d = None)
    /\ (forall type abstract fl gm,
          de_type d = Some type ->
          de_isAbstract d = Some abstract ->
          de_fieldsLocal d = Some fl ->
          de_genericMap d = Some gm ->
          if has_null_entry fl || has_null_entry gm
          then Entity_load (Some d) = Throw TypeError
          else exists E, returns (Entity_load (Some d)) (Some E)
                         /\ entity_type E = type /\ isAbstract E = abstract
                         /\ (~ In "__proto__" (keys fl) ->
                             ~ In "__proto__" (keys gm) ->
                             Entity_load (Some d) = Ret (Some E)))
    /\ (forall D (src : obj (option D)),
          has_null_entry src = true <-> exists k, get src k = Some None).
Proof.
  intros d.
  assert (Hp : forall x, exists p, load_path_if_present x = Ret p)
    by (intros [x|]; unfold load_path_if_present; simpl; eauto).
  assert (Hsome :
            forall type abstract fl gm,
              de_type d = Some type ->
              de_isAbstract d = Some abstract ->
              de_fieldsLocal d = Some fl ->
              de_genericMap d = Some gm ->
              if has_null_entry fl || has_null_entry gm
              then Entity_load (Some d) = Throw TypeError
              else exists E, returns (Entity_load (Some d)) (Some E)
                             /\ entity_type E = type
                             /\ isAbstract E = abstract
                             /\ (~ In "__proto__" (keys fl) ->
                                 ~ In "__proto__" (keys gm) ->
                                 Entity_load (Some d) = Ret (Some E))).
  { intros type abstract fl gm Hty Hab Hfl Hgm.
    destruct (Hp (de_parent d)) as (pa & Hpa).
    destruct (Hp (de_response d)) as (re & Hre).
    unfold Entity_load. simpl. rewrite Hty, Hab, Hfl, Hgm. simpl.
    rewrite Hpa, Hre. simpl.
    pose proof (fields_loop_outcome fl) as Hf.
    pose proof (fields_loop_outcome gm) as Hg.
    destruct (has_null_entry fl); simpl.
    - now rewrite Hf.
    - destruct Hf as (fields & Hfr & Hfc).
      destruct (has_null_entry gm); simpl.
      + apply (bind_throws _ Hfr). now rewrite Hg.
      + destruct Hg as (generics & Hgr & Hgc).
        exists (mkEntity type (coalesce (de_comment d) "") (de_config d)
                  abstract pa re (de_path d) (de_method d) fields generics).
        split; [|split; [reflexivity|split; [reflexivity|]]].
        * apply (bind_returns _ Hfr), (bind_returns _ Hgr). now left.
        * intros H1 H2. rewrite (Hfc H1). simpl. rewrite (Hgc H2).
          reflexivity. }
  split; [|split; [exact Hsome|intros D src; apply has_null_entry_iff]].
  split; [|apply Entity_load_malformed].
  intros Hnull.
  destruct (de_type d) as [type|] eqn:Hty; [|tauto].
  destruct (de_isAbstract d) as [abstract|] eqn:Hab; [|tauto].
  destruct (de_fieldsLocal d) as [fl|] eqn:Hfl; [|tauto].
  destruct (de_genericMap d) as [gm|] eqn:Hgm; [|tauto].
  exfalso. specialize (Hsome type abstract fl gm eq_refl eq_refl eq_refl eq_refl).
  destruct (has_null_entry fl || has_null_entry gm).
  - congruence.
  - destruct Hsome as (E & HE & _). rewrite Hnull in HE.
    apply returns_Ret in HE. discriminate.
Qed.

Lemma Entity_load_outcomes_witness :
  exists E, Entity_load (Some doc_three_fields) = Ret (Some E)
            /\ entity_type E = OBJECT /\ isAbstract E = false.
Proof.
  destruct (proj1 (proj2 (Entity_load_outcomes doc_three_fields))
              0%Z false _ [] eq_refl eq_refl eq_refl eq_refl)
    as (E & _ & Ht & Ha & HE).
  exists E. split; [|split; [exact Ht|exact Ha]].
  apply HE; simpl; intuition discriminate.
Defined.

(** X12. The own properties of a loaded enum are the items of the document
    that have a [value], each under the key of the document, with that
    value; an entry without [value] leaves no item, and neither does an
    entry under ["__proto__"], which goes to the prototype of [enumMap]
    and marks the result. *)
Theorem Enum_load_items :
  forall (d : EnumDoc) (e : Enum),
    returns (Enum_load (Some d)) (Some e) ->
    exists src,
      dn_enumMap d = Some src
      /\ enum_comment e = coalesce (dn_comment d) ""
      /\ (forall k,
            k <> "__proto__" ->
            get (enumMap e) k
            = match get src k with
              | Some (Some di) =>
                  match di_value di with
                  | Some v =>
                      Some (mkEnumItem v (coalesce (di_comment di) "")
                              (di_config di) (di_realname di))
                  | None => None
                  end
              | _ => None
              end)
      /\ get (enumMap e) "__proto__" = None
      /\ (Enum_load (Some d) = Ret (Some e) ->
          match get src "__proto__" with
          | Some (Some di) => di_value di = None
          | _ => True
          end).
Proof.
  intros d e H. unfold Enum_load in *. simpl in *.
  destruct (dn_enumMap d) as [src|]; simpl in *;
    [|apply returns_Ret in H; discriminate].
  apply bind_returns_inv in H. destruct H as (items & Hitems & H).
  apply returns_Ret in H. injection H as <-.
  exists src. split; [reflexivity|]. split; [reflexivity|].
  destruct (@load_each_own _ _ _ _ _ Hitems) as (Hget & Hpo).
  split; [|split; [exact Hpo|]].
  - intros k Hk. cbn [enumMap]. rewrite (Hget k Hk), is_key_get.
    unfold entry. destruct (get src k) as [[di|]|]; try reflexivity.
    unfold EnumItem_load. simpl. now destruct (di_value di).
  - intros Hclean. apply bind_Ret_inv in Hclean.
    destruct Hclean as (items' & Hitems' & _).
    destruct (@load_each_clean _ _ _ _ _ Hitems') as (_ & Hget').
    specialize (Hget' "__proto__").
    destruct (load_loop_clean EnumItem_load src (keys src) [] Hitems' eq_refl)
      as (_ & _ & Hpo').
    rewrite Hpo', is_key_get in Hget'. unfold entry in Hget'.
    destruct (get src "__proto__") as [[di|]|]; try exact I.
    unfold EnumItem_load in Hget'. simpl in Hget'.
    now destruct (di_value di).
Qed.

Lemma Enum_load_items_witness :
  exists src,
    dn_enumMap (mkEnumDoc (Some [("a", Some (mkEnumItemDoc (Some 3%Z)
                                               None None None));
                                 ("b", Some doc_no_item)]) None None)
    = Some src.
Proof.
  destruct (@Enum_load_items
              (mkEnumDoc (Some [("a", Some (mkEnumItemDoc (Some 3%Z)
                                              None None None));
                                ("b", Some doc_no_item)]) None None)
              _ (or_introl eq_refl)) as (src & Hsrc & _).
  exists src. exact Hsrc.
Defined.

(** An enum document with an item under ["__proto__"]: the item is not a
    property of the enum. *)
Example Enum_load_proto_item :
  Enum_load
    (Some (mkEnumDoc (Some [("a", Some (mkEnumItemDoc (Some 3%Z)
                                          None None None));
                            ("__proto__", Some (mkEnumItemDoc (Some 0%Z)
                                                  None None None))])
             None None))
  = Polluted (Some (mkEnum "" None [("a", item_of 3)])).
Proof. reflexivity. Qed.

Lemma Module_load_inv x mo :
  Module_load x = Ret (Some mo) ->
  exists md es ns,
    x = Some md /\ dm_entities md = Some es /\ dm_enums md = Some ns
    /\ load_each Entity_load es [] = Ret (entities mo)
    /\ load_each Enum_load ns [] = Ret (enums mo).
Proof.
  unfold Module_load. destruct x as [md|]; [|discriminate]. simpl.
  destruct (dm_entities md) as [es|] eqn:Hes, (dm_enums md) as [ns|] eqn:Hns;
    simpl; try discriminate.
  intros H. apply bind_Ret_inv in H. destruct H as (entities & He & H).
  apply bind_Ret_inv in H. destruct H as (enums & Hn & [= <-]).
  exists md, es, ns. simpl.
  repeat split; try reflexivity; assumption.
Qed.

Lemma Module_load_not_null md es ns x :
  dm_entities md = Some es -> dm_enums md = Some ns ->
  Module_load (Some md) = Ret x -> exists mo, x = Some mo.
Proof.
  unfold Module_load. simpl. intros -> ->. simpl.
  intros H. apply bind_Ret_inv in H. destruct H as (entities & He & H).
  apply bind_Ret_inv in H. destruct H as (enums & Hn & [= <-]). eauto.
Qed.

Lemma Project_load_inv d P :
  Project_load (Some d) = Ret (Some P) ->
  exists ms, dj_modules d = Some ms
             /\ load_each Module_load ms [] = Ret (modules P).
Proof.
  unfold Project_load. simpl.
  destruct (dj_name d), (dj_version d), (dj_targetPackage d),
    (dj_modules d) as [ms|]; simpl; try discriminate.
  intros H. apply bind_Ret_inv in H. destruct H as (modules & Hm & [= <-]).
  exists ms. now split.
Qed.

Lemma loaded_get {D N} (load : option D -> res (option N)) src o k node :
  load_each load src [] = Ret o ->
  load None <> Ret (Some node) ->
  (get o k = Some node
   <-> exists d, get src k = Some (Some d) /\ load (Some d) = Ret (Some node)).
Proof.
  intros Ho Hnone. destruct (@load_each_clean _ _ _ _ _ Ho) as (_ & Hget).
  rewrite (Hget k), is_key_get.
  unfold entry. destruct (get src k) as [[d|]|].
  - split.
    + destruct (load (Some d)) as [[x|]|msg|[x|]] eqn:Hl; try discriminate.
      intros [= ->]. now exists d.
    + intros (d' & [= <-] & ->). reflexivity.
  - split.
    + destruct (load None) as [[x|]|msg|[x|]] eqn:Hl; try discriminate.
      intros [= ->]. contradiction.
    + intros (d' & [=] & _).
  - split; [discriminate|intros (d' & [=] & _)].
Qed.

Lemma Module_load_None mo : Module_load None <> Ret (Some mo).
Proof. discriminate. Qed.

Lemma Entity_load_None e : Entity_load None <> Ret (Some e).
Proof. discriminate. Qed.

Lemma Enum_load_None e : Enum_load None <> Ret (Some e).
Proof. discriminate. Qed.

Lemma loaded_module d P ms m md :
  Project_load (Some d) = Ret (Some P) ->
  dj_modules d = Some ms ->
  get ms m = Some (Some md) ->
  dm_entities md <> None -> dm_enums md <> None ->
  exists mo, get (modules P) m = Some mo
             /\ Module_load (Some md) = Ret (Some mo).
Proof.
  intros HP Hms Hm He Hn.
  destruct (Project_load_inv _ HP) as (ms' & Hms' & Hload).
  assert (ms' = ms) by congruence. subst ms'.
  destruct (dm_entities md) as [es|] eqn:Hes; [|congruence].
  destruct (dm_enums md) as [ns|] eqn:Hns; [|congruence].
  assert (Hin : In m (keys ms))
    by (change m with (fst (m, Some md)); apply in_map; now apply get_In).
  destruct (proj1 (@load_each_clean _ _ _ _ _ Hload) m Hin) as (x & Hx).
  rewrite (proj2 (entry_Some ms m md) Hm) in Hx.
  destruct (Module_load_not_null md Hes Hns Hx) as (mo & ->).
  exists mo. split; [|exact Hx].
  apply (loaded_get Module_load ms m Hload (@Module_load_None mo)).
  now exists md.
Qed.

(** X13. [$Project.load] followed by [flatEntities()] (by [flatEnums()]): the
    pairs are those of the entities (enums) that the document has in a
    module with both [entities] and [enums] and that [$Entity.load]
    ([$Enum.load]) turns into a node, under the keys of the document. *)
Theorem Project_load_then_flat :
  forall (d : ProjectDoc) (P : Project),
    Project_load (Some d) = Ret (Some P) ->
    exists ms,
      dj_modules d = Some ms
      /\ (forall p e,
            In (p, e) (flatEntities P)
            <-> exists m n md es ed,
                  p = mkElementPath (Some m) (Some n)
                  /\ get ms m = Some (Some md)
                  /\ dm_entities md = Some es
                  /\ dm_enums md <> None
                  /\ get es n = Some (Some ed)
                  /\ Entity_load (Some ed) = Ret (Some e))
      /\ (forall p e,
            In (p, e) (flatEnums P)
            <-> exists m n md ns nd,
                  p = mkElementPath (Some m) (Some n)
                  /\ get ms m = Some (Some md)
                  /\ dm_entities md <> None
                  /\ dm_enums md = Some ns
                  /\ get ns n = Some (Some nd)
                  /\ Enum_load (Some nd) = Ret (Some e)).
Proof.
  intros d P HP.
  destruct (Project_load_inv _ HP) as (ms & Hms & Hload).
  destruct (Project_load_wf _ HP) as (Hnd & Hwf).
  assert (He : forall m mo, In (m, mo) (modules P) ->
                            NoDup (keys (entities mo)))
    by (intros m mo I; now apply (Hwf m mo)).
  assert (Hn : forall m mo, In (m, mo) (modules P) ->
                            NoDup (keys (enums mo)))
    by (intros m mo I; now apply (Hwf m mo)).
  exists ms. split; [exact Hms|]. split; intros p e.
  - unfold flatEntities. rewrite (flat_pairs entities P Hnd He).
    rewrite (In_pairs_of entities P p e Hnd He). split.
    + intros (m & n & mo & -> & Hm & Hget).
      apply (loaded_get Module_load ms m Hload (@Module_load_None mo)) in Hm.
      destruct Hm as (md & Hmd & Hmo).
      destruct (@Module_load_inv _ _ Hmo)
        as (md' & es & ns & [= <-] & Hes & Hns & Hentities & _).
      apply (loaded_get Entity_load es n Hentities (@Entity_load_None e))
        in Hget.
      destruct Hget as (ed & Hed & He').
      exists m, n, md, es, ed. repeat split; try assumption. congruence.
    + intros (m & n & md & es & ed & -> & Hmd & Hes & Hns & Hed & He').
      destruct (@loaded_module d P ms m md HP Hms Hmd) as (mo & Hmo & Hloadm);
        [congruence|exact Hns|].
      destruct (@Module_load_inv _ _ Hloadm)
        as (md' & es' & ns' & [= <-] & Hes' & _ & Hentities & _).
      assert (es' = es) by congruence. subst es'.
      exists m, n, mo. split; [reflexivity|]. split; [exact Hmo|].
      apply (loaded_get Entity_load es n Hentities (@Entity_load_None e)).
      now exists ed.
  - unfold flatEnums. rewrite (flat_pairs enums P Hnd Hn).
    rewrite (In_pairs_of enums P p e Hnd Hn). split.
    + intros (m & n & mo & -> & Hm & Hget).
      apply (loaded_get Module_load ms m Hload (@Module_load_None mo)) in Hm.
      destruct Hm as (md & Hmd & Hmo).
      destruct (@Module_load_inv _ _ Hmo)
        as (md' & es & ns & [= <-] & Hes & Hns & _ & Henums).
      apply (loaded_get Enum_load ns n Henums (@Enum_load_None e)) in Hget.
      destruct Hget as (nd & Hnd' & He').
      exists m, n, md, ns, nd. repeat split; try assumption. congruence.
    + intros (m & n & md & ns & nd & -> & Hmd & Hes & Hns & Hnd' & He').
      destruct (@loaded_module d P ms m md HP Hms Hmd) as (mo & Hmo & Hloadm);
        [exact Hes|congruence|].
      destruct (@Module_load_inv _ _ Hloadm)
        as (md' & es' & ns' & [= <-] & _ & Hns' & _ & Henums).
      assert (ns' = ns) by congruence. subst ns'.
      exists m, n, mo. split; [reflexivity|]. split; [exact Hmo|].
      apply (loaded_get Enum_load ns n Henums (@Enum_load_None e)).
      now exists nd.
Qed.

Lemma Project_load_then_flat_witness :
  exists ms, dj_modules doc_scenario_complete = Some ms.
Proof.
  destruct (@Project_load_then_flat doc_scenario_complete _ eq_refl)
    as (ms & Hms & _).
  exists ms. exact Hms.
Defined.

(** ** Resolution, flattening and the inheritance chain *)

Lemma read_Own_inv {V} (o : obj V) k v :
  read o k = Some (Own v) -> get o k = Some v.
Proof.
  unfold read. destruct (get o k); [now intros [= ->]|].
  destruct (inherited k); discriminate.
Qed.

Lemma read_Inherited_inv {V} (o : obj V) k k' :
  read o k = Some (Inherited k') ->
  k' = k /\ get o k = None /\ inherited k = true.
Proof.
  unfold read. destruct (get o k); [discriminate|].
  destruct (inherited k); [now intros [= ->]|discriminate].
Qed.

Lemma read_None_inv {V} (o : obj V) k :
  read o k = None -> get o k = None /\ inherited k = false.
Proof.
  unfold read. destruct (get o k); [discriminate|].
  destruct (inherited k); [discriminate|tauto].
Qed.

Lemma asEnumOf_enum P p e :
  wf_project P ->
  (asEnumOf p (Some P) = Ret (Some (Own e))
   <-> exists m n, p = mkElementPath (Some m) (Some n)
                   /\ stored enums P m n e).
Proof.
  intros Hwf. pose proof Hwf as (Hnd & _). unfold asEnumOf, stored.
  destruct p as [[m|] [n|]]; simpl;
    try (split; [discriminate|intros (? & ? & [=] & _)]).
  unfold read at 1. destruct (get (modules P) m) as [mo|] eqn:Hm.
  - pose proof (get_In _ _ Hm) as Hin.
    pose proof (wf_enums m mo Hwf Hin) as Hnde.
    split.
    + unfold read. destruct (get (enums mo) n) as [e'|] eqn:Hn.
      * intros [= ->]. exists m, n. split; [reflexivity|].
        exists mo. split; [exact Hin|now apply get_In].
      * destruct (inherited n); discriminate.
    + intros (m' & n' & [= <- <-] & mo' & Hin' & Hn').
      assert (mo' = mo) by (apply (In_get _ _ _ Hnd) in Hin'; congruence).
      subst mo'. now rewrite (read_own _ _ (In_get _ _ _ Hnde Hn')).
  - split.
    + destruct (inherited m); discriminate.
    + intros (m' & n' & [= <- <-] & mo' & Hin' & _).
      apply (In_get _ _ _ Hnd) in Hin'. congruence.
Qed.

Lemma asEnumOf_null P p :
  wf_project P ->
  (asEnumOf p (Some P) = Ret None <-> dangling enums P p).
Proof.
  intros Hwf. pose proof Hwf as (Hnd & _). unfold asEnumOf, dangling, absent.
  destruct p as [[m|] [n|]]; simpl; try (split; [tauto|reflexivity]).
  unfold read at 1. destruct (get (modules P) m) as [mo|] eqn:Hm.
  - pose proof (get_In _ _ Hm) as Hin.
    split.
    + unfold read. destruct (get (enums mo) n) as [e'|] eqn:Hn;
        [discriminate|].
      destruct (inherited n) eqn:Hi; [discriminate|]. intros _.
      right; right; right. exists m, n, mo. repeat split; try assumption.
      * now apply get_None.
      * now apply not_inherited_In.
    + intros [H|[H|[(m' & [= <-] & Hk & _)|
                    (m' & n' & mo' & [= <-] & [= <-] & Hin' & Hk & Hp)]]];
        try discriminate.
      * exfalso. apply Hk. change m with (fst (m, mo)). now apply in_map.
      * assert (mo' = mo) by (apply (In_get _ _ _ Hnd) in Hin'; congruence).
        subst mo'. f_equal. apply read_absent; [now apply get_None|].
        now apply not_inherited_In.
  - destruct (inherited m) eqn:Hi.
    + split; [discriminate|].
      intros [H|[H|[(m' & [= <-] & _ & Hp)|
                    (m' & n' & mo' & [= <-] & _ & Hin' & _)]]];
        try discriminate.
      * exfalso. apply Hp. now apply inherited_In.
      * apply (In_get _ _ _ Hnd) in Hin'. congruence.
    + split; [|reflexivity]. intros _. right; right; left.
      exists m. repeat split; [now apply get_None|now apply not_inherited_In].
Qed.

Lemma asEntityOf_inherited P p k :
  wf_project P ->
  (asEntityOf p (Some P) = Ret (Some (Inherited k))
   <-> exists m mo, p = mkElementPath (Some m) (Some k)
                    /\ In (m, mo) (modules P)
                    /\ ~ In k (keys (entities mo))
                    /\ In k object_prototype).
Proof.
  intros Hwf. pose proof Hwf as (Hnd & _). unfold asEntityOf.
  destruct p as [[m|] [n|]]; simpl;
    try (split; [discriminate|intros (? & ? & [=] & _)]).
  unfold read at 1. destruct (get (modules P) m) as [mo|] eqn:Hm.
  - pose proof (get_In _ _ Hm) as Hin. unfold read.
    destruct (get (entities mo) n) as [e'|] eqn:Hn.
    + split; [discriminate|].
      intros (m' & mo' & [= <- <-] & Hin' & Hk & _).
      assert (mo' = mo) by (apply (In_get _ _ _ Hnd) in Hin'; congruence).
      subst mo'. exfalso. apply Hk. change n with (fst (n, e')).
      apply in_map. now apply get_In.
    + destruct (inherited n) eqn:Hi.
      * split.
        -- intros [= <-]. exists m, mo. repeat split; try assumption.
           ++ now apply get_None.
           ++ now apply inherited_In.
        -- intros (m' & mo' & [= <- <-] & _). reflexivity.
      * split; [discriminate|].
        intros (m' & mo' & [= <- <-] & _ & _ & Hp).
        apply inherited_In in Hp. congruence.
  - split.
    + destruct (inherited m); discriminate.
    + intros (m' & mo' & [= <- <-] & Hin' & _).
      apply (In_get _ _ _ Hnd) in Hin'. congruence.
Qed.

Lemma asEntityOf_throws P p :
  (asEntityOf p (Some P) = Throw TypeError
   <-> exists m n, p = mkElementPath (Some m) (Some n)
                   /\ ~ In m (keys (modules P))
                   /\ In m object_prototype)
  /\ (forall msg, asEntityOf p (Some P) = Throw msg -> msg = TypeError)
  /\ (forall x, asEntityOf p (Some P) <> Polluted x)
  /\ asEntityOf p None = Ret None.
Proof.
  unfold asEntityOf.
  destruct p as [[m|] [n|]]; cbn [module name];
    try (split; [split; [discriminate|intros (? & ? & [=] & _)]|
         split; [discriminate|split; [discriminate|reflexivity]]]).
  destruct (read (modules P) m) as [[mo|k]|] eqn:Hr.
  - apply read_Own_inv in Hr.
    split; [|split; [discriminate|split; [discriminate|reflexivity]]].
    split; [discriminate|].
    intros (m' & n' & [= <- <-] & Hk & _). exfalso. apply Hk.
    change m with (fst (m, mo)). apply in_map. now apply get_In.
  - apply read_Inherited_inv in Hr. destruct Hr as (_ & Hg & Hi).
    split; [|split; [now intros msg [= <-]|
                     split; [discriminate|reflexivity]]].
    split; [|reflexivity].
    intros _. exists m, n. split; [reflexivity|].
    split; [now apply get_None|now apply inherited_In].
  - apply read_None_inv in Hr. destruct Hr as (_ & Hi).
    split; [|split; [discriminate|split; [discriminate|reflexivity]]].
    split; [discriminate|].
    intros (m' & n' & [= <- <-] & _ & Hp).
    apply inherited_In in Hp. congruence.
Qed.

Lemma asEnumOf_inherited P p k :
  wf_project P ->
  (asEnumOf p (Some P) = Ret (Some (Inherited k))
   <-> exists m mo, p = mkElementPath (Some m) (Some k)
                    /\ In (m, mo) (modules P)
                    /\ ~ In k (keys (enums mo))
                    /\ In k object_prototype).
Proof.
  intros Hwf. pose proof Hwf as (Hnd & _). unfold asEnumOf.
  destruct p as [[m|] [n|]]; simpl;
    try (split; [discriminate|intros (? & ? & [=] & _)]).
  unfold read at 1. destruct (get (modules P) m) as [mo|] eqn:Hm.
  - pose proof (get_In _ _ Hm) as Hin. unfold read.
    destruct (get (enums mo) n) as [e'|] eqn:Hn.
    + split; [discriminate|].
      intros (m' & mo' & [= <- <-] & Hin' & Hk & _).
      assert (mo' = mo) by (apply (In_get _ _ _ Hnd) in Hin'; congruence).
      subst mo'. exfalso. apply Hk. change n with (fst (n, e')).
      apply in_map. now apply get_In.
    + destruct (inherited n) eqn:Hi.
      * split.
        -- intros [= <-]. exists m, mo. repeat split; try assumption.
           ++ now apply get_None.
           ++ now apply inherited_In.
        -- intros (m' & mo' & [= <- <-] & _). reflexivity.
      * split; [discriminate|].
        intros (m' & mo' & [= <- <-] & _ & _ & Hp).
        apply inherited_In in Hp. congruence.
  - split.
    + destruct (inherited m); discriminate.
    + intros (m' & mo' & [= <- <-] & Hin' & _).
      apply (In_get _ _ _ Hnd) in Hin'. congruence.
Qed.

Lemma asEnumOf_throws P p :
  (asEnumOf p (Some P) = Throw TypeError
   <-> exists m n, p = mkElementPath (Some m) (Some n)
                   /\ ~ In m (keys (modules P))
                   /\ In m object_prototype)
  /\ (forall msg, asEnumOf p (Some P) = Throw msg -> msg = TypeError)
  /\ (forall x, asEnumOf p (Some P) <> Polluted x)
  /\ asEnumOf p None = Ret None.
Proof.
  unfold asEnumOf.
  destruct p as [[m|] [n|]]; cbn [module name];
    try (split; [split; [discriminate|intros (? & ? & [=] & _)]|
         split; [discriminate|split; [discriminate|reflexivity]]]).
  destruct (read (modules P) m) as [[mo|k]|] eqn:Hr.
  - apply read_Own_inv in Hr.
    split; [|split; [discriminate|split; [discriminate|reflexivity]]].
    split; [discriminate|].
    intros (m' & n' & [= <- <-] & Hk & _). exfalso. apply Hk.
    change m with (fst (m, mo)). apply in_map. now apply get_In.
  - apply read_Inherited_inv in Hr. destruct Hr as (_ & Hg & Hi).
    split; [|split; [now intros msg [= <-]|
                     split; [discriminate|reflexivity]]].
    split; [|reflexivity].
    intros _. exists m, n. split; [reflexivity|].
    split; [now apply get_None|now apply inherited_In].
  - apply read_None_inv in Hr. destruct Hr as (_ & Hi).
    split; [|split; [discriminate|split; [discriminate|reflexivity]]].
    split; [discriminate|].
    intros (m' & n' & [= <- <-] & _ & Hp).
    apply inherited_In in Hp. congruence.
Qed.

(** X21. The outcomes of [asEntityOf] and [asEnumOf] on a project whose
    objects have one property per key.  The entity (enum) stored at the
    coordinates of the path, when there is one; null when a coordinate is
    null or names nothing, neither in the object nor in
    [Object.prototype]; the member of [Object.prototype] that the name
    finds, when the module is there and has no such entity (enum); and a
    [TypeError], the only exception, when the module is not there and its
    key names a member of [Object.prototype].  Without a project both
    return null. *)
Theorem asEntityOf_asEnumOf_outcomes :
  forall (P : Project) (p : ElementPath),
    wf_project P ->
    ((forall e, asEntityOf p (Some P) = Ret (Some (Own e))
                <-> exists m n, p = mkElementPath (Some m) (Some n)
                                /\ stored entities P m n e)
     /\ (asEntityOf p (Some P) = Ret None <-> dangling entities P p)
     /\ (forall k, asEntityOf p (Some P) = Ret (Some (Inherited k))
                   <-> exists m mo, p = mkElementPath (Some m) (Some k)
                                    /\ In (m, mo) (modules P)
                                    /\ ~ In k (keys (entities mo))
                                    /\ In k object_prototype)
     /\ (asEntityOf p (Some P) = Throw TypeError
         <-> exists m n, p = mkElementPath (Some m) (Some n)
                         /\ ~ In m (keys (modules P))
                         /\ In m object_prototype)
     /\ (forall msg, asEntityOf p (Some P) = Throw msg -> msg = TypeError)
     /\ (forall x, asEntityOf p (Some P) <> Polluted x)
     /\ asEntityOf p None = Ret None)
    /\ ((forall e, asEnumOf p (Some P) = Ret (Some (Own e))
                   <-> exists m n, p = mkElementPath (Some m) (Some n)
                                   /\ stored enums P m n e)
        /\ (asEnumOf p (Some P) = Ret None <-> dangling enums P p)
        /\ (forall k, asEnumOf p (Some P) = Ret (Some (Inherited k))
                      <-> exists m mo, p = mkElementPath (Some m) (Some k)
                                       /\ In (m, mo) (modules P)
                                       /\ ~ In k (keys (enums mo))
                                       /\ In k object_prototype)
        /\ (asEnumOf p (Some P) = Throw TypeError
            <-> exists m n, p = mkElementPath (Some m) (Some n)
                            /\ ~ In m (keys (modules P))
                            /\ In m object_prototype)
        /\ (forall msg, asEnumOf p (Some P) = Throw msg -> msg = TypeError)
        /\ (forall x, asEnumOf p (Some P) <> Polluted x)
        /\ asEnumOf p None = Ret None).
Proof.
  intros P p Hwf. split.
  - split; [intros e; now apply asEntityOf_entity|].
    split; [now apply asEntityOf_null|].
    split; [intros k; now apply asEntityOf_inherited|].
    apply asEntityOf_throws.
  - split; [intros e; now apply asEnumOf_enum|].
    split; [now apply asEnumOf_null|].
    split; [intros k; now apply asEnumOf_inherited|].
    apply asEnumOf_throws.
Qed.

Lemma asEntityOf_asEnumOf_outcomes_witness :
  asEntityOf (mkElementPath (Some "m") (Some "Child")) (Some family)
  = Ret (Some (Own Child))
  /\ asEntityOf (mkElementPath (Some "m") (Some "Orphan")) (Some family)
     = Ret None
  /\ asEnumOf (mkElementPath (Some "valueOf") (Some "Color")) (Some family)
     = Throw TypeError.
Proof.
  pose proof (asEntityOf_asEnumOf_outcomes
                (mkElementPath (Some "m") (Some "Child")) family_wf)
    as ((H1 & _) & _).
  pose proof (asEntityOf_asEnumOf_outcomes
                (mkElementPath (Some "m") (Some "Orphan")) family_wf)
    as ((_ & H2 & _) & _).
  pose proof (asEntityOf_asEnumOf_outcomes
                (mkElementPath (Some "valueOf") (Some "Color")) family_wf)
    as (_ & (_ & _ & _ & H3 & _)).
  split; [|split].
  - apply (proj2 (H1 Child)). exists "m", "Child". split; [reflexivity|].
    eexists. split; [left; reflexivity|]. right. left. reflexivity.
  - apply (proj2 H2). right; right; right.
    exists "m", "Orphan", (mkModule [("Parent", Parent); ("Child", Child)] []).
    split; [reflexivity|]. split; [reflexivity|].
    split; [left; reflexivity|].
    split; simpl; intuition discriminate.
  - apply (proj2 H3). exists "valueOf", "Color". split; [reflexivity|].
    split; simpl; [intuition discriminate|tauto].
Defined.

Lemma asEntityOf_Own_iff p P e :
  asEntityOf p (Some P) = Ret (Some (Own e))
  <-> exists m n mo, p = mkElementPath (Some m) (Some n)
                     /\ get (modules P) m = Some mo
                     /\ get (entities mo) n = Some e.
Proof.
  unfold asEntityOf.
  destruct p as [[m|] [n|]]; simpl;
    try (split; [discriminate|intros (? & ? & ? & [=] & _)]).
  unfold read at 1. destruct (get (modules P) m) as [mo|] eqn:Hm.
  - unfold read. destruct (get (entities mo) n) as [e'|] eqn:Hn.
    + split.
      * intros [= ->]. now exists m, n, mo.
      * intros (m' & n' & mo' & [= <- <-] & Hm' & H). congruence.
    + split; [destruct (inherited n); discriminate|].
      intros (m' & n' & mo' & [= <- <-] & Hm' & H). congruence.
  - split; [destruct (inherited m); discriminate|].
    intros (m' & n' & mo' & [= <- <-] & Hm' & _). congruence.
Qed.

Lemma asEnumOf_Own_iff p P e :
  asEnumOf p (Some P) = Ret (Some (Own e))
  <-> exists m n mo, p = mkElementPath (Some m) (Some n)
                     /\ get (modules P) m = Some mo
                     /\ get (enums mo) n = Some e.
Proof.
  unfold asEnumOf.
  destruct p as [[m|] [n|]]; simpl;
    try (split; [discriminate|intros (? & ? & ? & [=] & _)]).
  unfold read at 1. destruct (get (modules P) m) as [mo|] eqn:Hm.
  - unfold read. destruct (get (enums mo) n) as [e'|] eqn:Hn.
    + split.
      * intros [= ->]. now exists m, n, mo.
      * intros (m' & n' & mo' & [= <- <-] & Hm' & H). congruence.
    + split; [destruct (inherited n); discriminate|].
      intros (m' & n' & mo' & [= <- <-] & Hm' & H). congruence.
  - split; [destruct (inherited m); discriminate|].
    intros (m' & n' & mo' & [= <- <-] & Hm' & _). congruence.
Qed.

(** X14. Flattening and resolution are inverse to each other: a pair is in
    [flatEntities()] ([flatEnums()]) exactly when its path resolves to its
    node through the project. *)
Theorem flat_then_resolve :
  forall P : Project,
    wf_project P ->
    (forall p e, In (p, e) (flatEntities P)
                 <-> asEntityOf p (Some P) = Ret (Some (Own e)))
    /\ (forall p e, In (p, e) (flatEnums P)
                    <-> asEnumOf p (Some P) = Ret (Some (Own e))).
Proof.
  intros P (Hnd & Hwf).
  assert (He : forall m mo, In (m, mo) (modules P) ->
                            NoDup (keys (entities mo)))
    by (intros m mo I; now apply (Hwf m mo)).
  assert (Hn : forall m mo, In (m, mo) (modules P) ->
                            NoDup (keys (enums mo)))
    by (intros m mo I; now apply (Hwf m mo)).
  split; intros p e.
  - unfold flatEntities. rewrite (flat_pairs entities P Hnd He).
    rewrite (In_pairs_of entities P p e Hnd He).
    symmetry. apply asEntityOf_Own_iff.
  - unfold flatEnums. rewrite (flat_pairs enums P Hnd Hn).
    rewrite (In_pairs_of enums P p e Hnd Hn).
    symmetry. apply asEnumOf_Own_iff.
Qed.

Lemma flat_then_resolve_witness :
  asEntityOf (mkElementPath (Some "m") (Some "Child")) (Some family)
  = Ret (Some (Own Child)).
Proof.
  apply (proj1 (flat_then_resolve family_wf)).
  simpl. right. left. reflexivity.
Defined.

Lemma parentEntity_not_Polluted E P x : parentEntity E P <> Polluted x.
Proof.
  unfold parentEntity. destruct (parent E) as [p|]; [|discriminate].
  destruct P as [P|]; [|destruct p; discriminate].
  apply asEntityOf_throws.
Qed.

Lemma getGenericUnsolved_not_Polluted fuel : forall E P r,
  getGenericUnsolved fuel E P <> Some (Polluted r).
Proof.
  induction fuel as [|fuel IH]; intros E P r; simpl;
    (destruct P as [P|]; [|discriminate]);
    destruct (parentEntity E (Some P)) as [[[E'|k]|]|msg|[[E'|k]|]] eqn:Hp;
    try discriminate;
    try (now elim (parentEntity_not_Polluted _ _ Hp)).
  specialize (IH E' (Some P)).
  destruct (getGenericUnsolved fuel E' (Some P)) as [[pg|msg|pg]|];
    try discriminate.
  now elim (IH pg).
Qed.

(** X15. [getGenericUnsolved] returns no list with a mark.  No name that it
    returns is a key of the entity's own [genericMap] or a member of
    [Object.prototype], and each comes from the local generics of the
    entity or from what its resolved parent leaves unsolved. *)
Theorem getGenericUnsolved_names :
  forall fuel (E : Entity) (P : Project) (m : res (list string))
         (r : list string),
    getGenericUnsolved fuel E (Some P) = Some m ->
    returns m r ->
    m = Ret r
    /\ forall o, In o r ->
         get (genericMap E) o = None
         /\ read (genericMap E) o = None
         /\ (In o (getGenericLocal E)
             \/ exists E' fuel' r',
                  parentEntity E (Some P) = Ret (Some (Own E'))
                  /\ getGenericUnsolved fuel' E' (Some P) = Some (Ret r')
                  /\ In o r').
Proof.
  intros fuel E P m r Hm Hret.
  assert (Hr : m = Ret r).
  { destruct Hret as [->| ->]; [reflexivity|].
    now elim (getGenericUnsolved_not_Polluted _ _ _ Hm). }
  subst m. split; [reflexivity|]. intros o Ho.
  assert (Hshape :
            exists pg,
              r = filter (unsolved_here E) (pg ++ getGenericLocal E)
              /\ (pg = []
                  \/ exists E' fuel',
                       parentEntity E (Some P) = Ret (Some (Own E'))
                       /\ getGenericUnsolved fuel' E' (Some P)
                          = Some (Ret pg))).
  { destruct fuel as [|fuel]; simpl in Hm;
      destruct (parentEntity E (Some P)) as [[[E'|k]|]|msg|[[E'|k]|]] eqn:Hp;
      try discriminate;
      try (now elim (parentEntity_not_Polluted _ _ Hp)).
    - injection Hm as <-. exists []. split; [reflexivity|now left].
    - destruct (getGenericUnsolved fuel E' (Some P)) as [[pg|msg|pg]|] eqn:Hpg;
        try discriminate.
      injection Hm as <-. exists pg. split; [reflexivity|].
      right. now exists E', fuel.
    - injection Hm as <-. exists []. split; [reflexivity|now left]. }
  destruct Hshape as (pg & -> & Hpg).
  apply filter_In in Ho. destruct Ho as (Hin & Hun).
  assert (Hread : read (genericMap E) o = None).
  { unfold unsolved_here in Hun.
    now destruct (read (genericMap E) o). }
  split; [|split; [exact Hread|]].
  - unfold read in Hread. now destruct (get (genericMap E) o).
  - apply in_app_or in Hin. destruct Hin as [Hin|Hin]; [|now left].
    destruct Hpg as [->|(E' & fuel' & Hp & Hr')]; [destruct Hin|].
    right. now exists E', fuel', pg.
Qed.

Lemma getGenericUnsolved_names_witness :
  get (genericMap Parent) "T" = None.
Proof.
  apply (@getGenericUnsolved_names 0 Parent family (Ret ["T"]) ["T"]
           eq_refl (or_introl eq_refl)).
  now left.
Defined.

Lemma getGenericUnsolved_as_walk fuel : forall (E : Entity) (P : Project),
  getGenericUnsolved fuel E (Some P)
  = fromAncestorToMe fuel E P solve_level [].
Proof.
  induction fuel as [|fuel IH]; intros E P; simpl;
    destruct (parentEntity E (Some P)) as [[[E'|k]|]|msg|[[E'|k]|]];
    try reflexivity;
    rewrite IH;
    now destruct (fromAncestorToMe fuel E' P solve_level []).
Qed.

(** X16. [getGenericUnsolved] is the ancestor walk with the visitor that solves
    one level: both run out of fuel together and otherwise agree. *)
Theorem getGenericUnsolved_is_a_walk :
  forall fuel (E : Entity) (P : Project),
    getGenericUnsolved fuel E (Some P)
    = fromAncestorToMe fuel E P
        (fun e pg => filter (unsolved_here e) (pg ++ getGenericLocal e)) [].
Proof.
  induction fuel as [|fuel IH]; intros E P; simpl;
    destruct (parentEntity E (Some P)) as [[[E'|k]|]|msg|[[E'|k]|]];
    try reflexivity;
    rewrite IH;
    now destruct
          (fromAncestorToMe fuel E' P
             (fun e pg => filter (unsolved_here e) (pg ++ getGenericLocal e))
             []).
Qed.

Lemma walk_returned {S} fuel : forall (E : Entity) (P : Project)
  (block : Entity -> S -> S) (s s' : S),
  wf_project P ->
  fromAncestorToMe fuel E P block s = Some (Ret s') ->
  exists l, ancestors P E l /\ List.length l <= fuel.
Proof.
  induction fuel as [|fuel IH]; intros E P block s s' Hwf; simpl;
    destruct (parentEntity E (Some P)) as [[[E'|k]|]|msg|[[E'|k]|]] eqn:Hp;
    try discriminate;
    try (now elim (parentEntity_not_Polluted _ _ Hp));
    try (intros _; exists []; split;
         [constructor; now apply (parentEntity_is_root E Hwf)|simpl; lia]).
  destruct (fromAncestorToMe fuel E' P block s) as [[s0|msg|s0]|] eqn:Hw;
    try discriminate.
  intros _. destruct (IH _ _ _ _ _ Hwf Hw) as (l & Hl & Hlen).
  exists (l ++ [E']). split.
  - apply ancestors_step with (E' := E'); [|exact Hl].
    now apply (parentEntity_parent_is E E' Hwf).
  - rewrite length_app. simpl. lia.
Qed.

Lemma walk_more_fuel {S} fuel : forall (E : Entity) (P : Project)
  (block : Entity -> S -> S) (s : S) m more,
  fromAncestorToMe fuel E P block s = Some m ->
  fromAncestorToMe (fuel + more) E P block s = Some m.
Proof.
  induction fuel as [|fuel IH]; intros E P block s m more.
  - simpl. destruct more as [|more]; [now intros H|]. simpl.
    destruct (parentEntity E (Some P)) as [[[E'|k]|]|msg|[[E'|k]|]];
      try discriminate; now intros H.
  - simpl.
    destruct (parentEntity E (Some P)) as [[[E'|k]|]|msg|[[E'|k]|]];
      try (now intros H);
      (destruct (fromAncestorToMe fuel E' P block s) as [w|] eqn:Hw;
       [|discriminate]);
      now rewrite (IH _ _ _ _ _ more Hw).
Qed.

Lemma walk_of_own_parent {S} fuel : forall (E : Entity) (P : Project)
  (block : Entity -> S -> S) (s : S),
  parentEntity E (Some P) = Ret (Some (Own E)) ->
  fromAncestorToMe fuel E P block s = None.
Proof.
  induction fuel as [|fuel IH]; intros E P block s Hp; simpl; rewrite Hp;
    [reflexivity|].
  now rewrite (IH E P block s Hp).
Qed.

(** X17. On a project whose objects have one property per key, the ancestor
    walk and [getGenericUnsolved] return exactly when the parent chain is
    finite and made of entities of the project, up to an entity whose
    parent is absent or names nothing, within a depth of calls equal to
    its length; more depth does not change an outcome; and on an entity
    whose parent path leads to the entity itself neither ends, whatever
    the depth. *)
Theorem walk_returns_iff_chain_finite :
  forall (P : Project) (E : Entity) (fuel : nat),
    wf_project P ->
    (forall S (block : Entity -> S -> S) (s : S),
        (exists s', fromAncestorToMe fuel E P block s = Some (Ret s'))
        <-> exists l, ancestors P E l /\ List.length l <= fuel)
    /\ ((exists r, getGenericUnsolved fuel E (Some P) = Some (Ret r))
        <-> exists l, ancestors P E l /\ List.length l <= fuel)
    /\ (forall S (block : Entity -> S -> S) (s : S) m more,
          fromAncestorToMe fuel E P block s = Some m ->
          fromAncestorToMe (fuel + more) E P block s = Some m)
    /\ (forall m more,
          getGenericUnsolved fuel E (Some P) = Some m ->
          getGenericUnsolved (fuel + more) E (Some P) = Some m)
    /\ (parent_is P E E ->
        (forall S (block : Entity -> S -> S) (s : S),
            fromAncestorToMe fuel E P block s = None)
        /\ getGenericUnsolved fuel E (Some P) = None).
Proof.
  intros P E fuel Hwf.
  assert (Hiff : forall S (block : Entity -> S -> S) (s : S),
             (exists s', fromAncestorToMe fuel E P block s = Some (Ret s'))
             <-> exists l, ancestors P E l /\ List.length l <= fuel).
  { intros S block s. split.
    - intros (s' & Hs'). now apply (walk_returned _ _ _ _ Hwf Hs').
    - intros (l & Hl & Hlen). eexists.
      now apply (fromAncestorToMe_chain Hwf Hl). }
  split; [exact Hiff|]. split; [|split; [|split]].
  - rewrite getGenericUnsolved_as_walk. apply Hiff.
  - intros S block s m more. apply walk_more_fuel.
  - intros m more. rewrite !getGenericUnsolved_as_walk. apply walk_more_fuel.
  - intros Hp. apply (parentEntity_parent_is E E Hwf) in Hp.
    split; [intros S block s; now apply walk_of_own_parent|].
    rewrite getGenericUnsolved_as_walk. now apply walk_of_own_parent.
Qed.

Lemma pond_wf : wf_project pond.
Proof.
  split.
  - simpl. repeat constructor. simpl. tauto.
  - intros m mo [[= <- <-]|[]]. simpl. split; repeat constructor; simpl; tauto.
Defined.

Lemma walk_returns_iff_chain_finite_witness :
  getGenericUnsolved 1000 Narcissus (Some pond) = None
  /\ getGenericUnsolved (1 + 5) Child (Some family) = Some (Ret []).
Proof.
  split.
  - apply (proj2 (proj2 (proj2 (proj2
             (walk_returns_iff_chain_finite Narcissus 1000 pond_wf))))).
    exists "m", "Narcissus". split; [reflexivity|].
    exists (mkModule [("Narcissus", Narcissus)] []).
    split; simpl; left; reflexivity.
  - apply (proj1 (proj2 (proj2 (proj2
             (walk_returns_iff_chain_finite Child 1 family_wf))))).
    reflexivity.
Defined.

(** ** The walk along a chain of the project *)

Lemma ancestors_Parent : ancestors family Parent [].
Proof. constructor. left. reflexivity. Defined.

Lemma parent_is_Parent E :
  parent E = Some (mkElementPath (Some "m") (Some "Parent")) ->
  parent_is family E Parent.
Proof.
  intros Hp. exists "m", "Parent". split; [exact Hp|].
  exists (mkModule [("Parent", Parent); ("Child", Child)] []).
  split; simpl; left; reflexivity.
Defined.


Lemma ancestors_Child : ancestors family Child [Parent].
Proof.
  change [Parent] with ([] ++ [Parent]).
  apply ancestors_step; [now apply parent_is_Parent|apply ancestors_Parent].
Defined.

(** X22. On a project whose objects have one property per key, when the
    parent chain of [E] is finite, with the [N] ancestors [l] (root
    first), each the entity stored at the parent path of the next, and the
    root an entity whose parent is absent or names nothing,
    [E.fromAncestorToMe(P, visit)] returns after running [visit] on [l]
    and then on [E], in this order: [N + 1] calls, the last on [E]. *)
Theorem fromAncestorToMe_visits_chain :
  forall (P : Project) (E : Entity) (l : list Entity),
    wf_project P ->
    ancestors P E l ->
    (forall S (visit : Entity -> S -> S) (s : S) fuel,
        List.length l <= fuel ->
        fromAncestorToMe fuel E P visit s
        = Some (Ret (fold_left (fun s e => visit e s) (l ++ [E]) s)))
    /\ (forall fuel,
          List.length l <= fuel ->
          fromAncestorToMe fuel E P (fun e visited => visited ++ [e]) []
          = Some (Ret (l ++ [E])))
    /\ List.length (l ++ [E]) = List.length l + 1
    /\ last (l ++ [E]) E = E
    /\ (exists root, hd_error (l ++ [E]) = Some root /\ is_root P root)
    /\ (forall i a b,
          nth_error (l ++ [E]) i = Some a ->
          nth_error (l ++ [E]) (S i) = Some b ->
          parent_is P b a).
Proof.
  intros P E l Hwf Hanc.
  split; [now apply fromAncestorToMe_chain|].
  split.
  { intros fuel Hfuel.
    rewrite (fromAncestorToMe_chain Hwf Hanc _ _ Hfuel).
    now rewrite fold_left_snoc. }
  split; [rewrite length_app; reflexivity|].
  split; [apply last_last|].
  split; [now apply ancestors_root_first | now apply ancestors_linked].
Qed.

Lemma fromAncestorToMe_visits_chain_witness :
  fromAncestorToMe 1 Child family (fun e visited => visited ++ [e]) []
  = Some (Ret [Parent; Child]).
Proof.
  apply (proj1 (proj2 (fromAncestorToMe_visits_chain family_wf
                         ancestors_Child))).
  simpl. lia.
Defined.






(** ** Exceptions while loading *)

Lemma bind_Throw_inv {A B} (m : res A) (f : A -> res B) msg :
  bind m f = Throw msg ->
  m = Throw msg \/ exists a, returns m a /\ f a = Throw msg.
Proof.
  destruct m as [a|msg'|a]; simpl.
  - intros H. right. exists a. split; [now left|exact H].
  - intros [= ->]. now left.
  - intros H. right. exists a. split; [now right|].
    destruct (f a); simpl in H; try discriminate. exact H.
Qed.

Lemma load_each_throws_TypeError {D N} (load : option D -> res (option N))
  (src : obj (option D)) :
  (forall x msg, load x = Throw msg -> msg = TypeError) ->
  forall dst msg, load_each load src dst = Throw msg -> msg = TypeError.
Proof.
  intros Hload dst msg.
  apply (@load_loop_throws_TypeError _ _ load src Hload (keys src) dst msg).
Qed.

Lemma load_each_throws_at {D N} (load : option D -> res (option N))
  (src : obj (option D)) k e :
  (forall x msg, load x = Throw msg -> msg = TypeError) ->
  get src k = Some e -> load e = Throw TypeError ->
  load_each load src [] = Throw TypeError.
Proof.
  intros Hload Hget He.
  apply (@load_loop_throws _ _ load src Hload (keys src) [] k TypeError).
  - change k with (fst (k, e)). apply in_map. now apply get_In.
  - unfold entry. now rewrite Hget.
Qed.

Lemma EnumItem_load_throws x msg :
  EnumItem_load x = Throw msg -> msg = TypeError.
Proof.
  destruct x as [d|]; [|now intros [= <-]].
  unfold EnumItem_load. simpl. destruct (di_value d); discriminate.
Qed.

Lemma Enum_load_throws x msg : Enum_load x = Throw msg -> msg = TypeError.
Proof.
  destruct x as [d|]; [|now intros [= <-]].
  unfold Enum_load. simpl. destruct (dn_enumMap d) as [src|]; simpl;
    [|discriminate].
  intros H. apply bind_Throw_inv in H. destruct H as [H|(a & _ & [=])].
  apply (load_each_throws_TypeError EnumItem_load src EnumItem_load_throws
           [] H).
Qed.

Lemma Entity_load_throws x msg : Entity_load x = Throw msg -> msg = TypeError.
Proof.
  destruct x as [d|]; [|now intros [= <-]].
  unfold Entity_load. simpl.
  destruct (de_type d), (de_isAbstract d), (de_fieldsLocal d) as [fl|],
    (de_genericMap d) as [gm|]; simpl; try discriminate.
  assert (Hp : forall x, exists p, load_path_if_present x = Ret p)
    by (intros [x|]; unfold load_path_if_present; simpl; eauto).
  destruct (Hp (de_parent d)) as (pa & ->).
  destruct (Hp (de_response d)) as (re & ->). simpl.
  intros H. apply bind_Throw_inv in H. destruct H as [H|(o & _ & H)].
  - apply (load_each_throws_TypeError Field_load fl Field_load_throws [] H).
  - apply bind_Throw_inv in H. destruct H as [H|(o' & _ & [=])].
    apply (load_each_throws_TypeError Field_load gm Field_load_throws [] H).
Qed.

Lemma Module_load_throws x msg : Module_load x = Throw msg -> msg = TypeError.
Proof.
  destruct x as [d|]; [|now intros [= <-]].
  unfold Module_load. simpl.
  destruct (dm_entities d) as [es|], (dm_enums d) as [ns|]; simpl;
    try discriminate.
  intros H. apply bind_Throw_inv in H. destruct H as [H|(o & _ & H)].
  - apply (load_each_throws_TypeError Entity_load es Entity_load_throws
             [] H).
  - apply bind_Throw_inv in H. destruct H as [H|(o' & _ & [=])].
    apply (load_each_throws_TypeError Enum_load ns Enum_load_throws [] H).
Qed.

Lemma Project_load_throws x msg :
  Project_load x = Throw msg -> msg = TypeError.
Proof.
  destruct x as [d|]; [|now intros [= <-]].
  unfold Project_load. simpl.
  destruct (dj_name d), (dj_version d), (dj_targetPackage d),
    (dj_modules d) as [ms|]; simpl; try discriminate.
  intros H. apply bind_Throw_inv in H. destruct H as [H|(o & _ & [=])].
  apply (load_each_throws_TypeError Module_load ms Module_load_throws [] H).
Qed.

(** X18. The only exception of the loaders is the [TypeError] of reading a
    property of null, and it is not caught on the way up: in a project
    document with its required fields, a module entry that is null, or an
    entity (of a module with [entities] and [enums]) whose load throws,
    makes [$Project.load] throw. *)
Theorem exceptions_abort_the_load :
  forall (d : ProjectDoc) name version package ms,
    dj_name d = Some name ->
    dj_version d = Some version ->
    dj_targetPackage d = Some package ->
    dj_modules d = Some ms ->
    (forall msg, Project_load (Some d) = Throw msg -> msg = TypeError)
    /\ (forall m, get ms m = Some None ->
                  Project_load (Some d) = Throw TypeError)
    /\ (forall m md es ns n ed,
          get ms m = Some (Some md) ->
          dm_entities md = Some es ->
          dm_enums md = Some ns ->
          get es n = Some ed ->
          Entity_load ed = Throw TypeError ->
          Project_load (Some d) = Throw TypeError)
    /\ (forall m md es ns n nd,
          get ms m = Some (Some md) ->
          dm_entities md = Some es ->
          dm_enums md = Some ns ->
          (exists o, returns (load_each Entity_load es []) o) ->
          get ns n = Some nd ->
          Enum_load nd = Throw TypeError ->
          Project_load (Some d) = Throw TypeError).
Proof.
  intros d name version package ms Hn Hv Hp Hms.
  assert (Hproject : forall m e,
             get ms m = Some e -> Module_load e = Throw TypeError ->
             Project_load (Some d) = Throw TypeError).
  { intros m e Hm He. unfold Project_load. simpl.
    rewrite Hn, Hv, Hp, Hms. simpl.
    now rewrite (load_each_throws_at Module_load ms m Module_load_throws
                   Hm He). }
  split; [intros msg; apply Project_load_throws|]. split; [|split].
  - intros m Hm. now apply (Hproject m None).
  - intros m md es ns n ed Hm Hes Hns Hed Hthrow.
    apply (Hproject m (Some md) Hm).
    unfold Module_load. simpl. rewrite Hes, Hns. simpl.
    now rewrite (load_each_throws_at Entity_load es n Entity_load_throws
                   Hed Hthrow).
  - intros m md es ns n nd Hm Hes Hns (o & Ho) Hnd Hthrow.
    apply (Hproject m (Some md) Hm).
    unfold Module_load. simpl. rewrite Hes, Hns. simpl.
    apply (bind_throws _ Ho).
    now rewrite (load_each_throws_at Enum_load ns n Enum_load_throws
                   Hnd Hthrow).
Qed.

Lemma exceptions_abort_the_load_witness :
  Project_load
    (Some (mkProjectDoc (Some "p") (Some "1") (Some "pkg")
             (Some [("m", Some (mkModuleDoc (Some [("A", Some doc_A)])
                                  (Some [])));
                    ("n", None)])))
  = Throw TypeError.
Proof.
  apply (proj1 (proj2 (@exceptions_abort_the_load
                         (mkProjectDoc (Some "p") (Some "1") (Some "pkg")
                            (Some [("m", Some (mkModuleDoc
                                                 (Some [("A", Some doc_A)])
                                                 (Some [])));
                                   ("n", None)]))
                         "p" "1" "pkg" _ eq_refl eq_refl eq_refl eq_refl))
           "n").
  reflexivity.
Defined.

(** ** From the document to the generics *)

Lemma Entity_load_inv d E :
  Entity_load (Some d) = Ret (Some E) ->
  exists fl gm,
    de_fieldsLocal d = Some fl /\ de_genericMap d = Some gm
    /\ load_each Field_load fl [] = Ret (fieldsLocal E)
    /\ load_each Field_load gm [] = Ret (genericMap E).
Proof.
  unfold Entity_load. simpl.
  destruct (de_type d), (de_isAbstract d), (de_fieldsLocal d) as [fl|],
    (de_genericMap d) as [gm|]; simpl; try discriminate.
  assert (Hp : forall x, exists p, load_path_if_present x = Ret p)
    by (intros [x|]; unfold load_path_if_present; simpl; eauto).
  destruct (Hp (de_parent d)) as (pa & ->).
  destruct (Hp (de_response d)) as (re & ->). simpl.
  intros H. apply bind_Ret_inv in H. destruct H as (o & Hfl & H).
  apply bind_Ret_inv in H. destruct H as (o' & Hgm & [= <-]).
  exists fl, gm. simpl.
  repeat split; try reflexivity; assumption.
Qed.

Lemma local_names_by_keys (o whole : obj Field) :
  (forall k v, In (k, v) o -> get whole k = Some v) ->
  local_names o
  = flat_map
      (fun k => match get whole k with
                | Some f => match field_type f with
                            | TUnknown u => [u]
                            | _ => []
                            end
                | None => []
                end)
      (keys o).
Proof.
  induction o as [|[k f] o IH]; simpl; intros Hget; [reflexivity|].
  rewrite (Hget k f) by now left.
  rewrite IH; [reflexivity|]. intros k' v' I. apply Hget. now right.
Qed.

Lemma flat_map_filter {A B} (g : A -> list B) (keep : A -> bool) l :
  (forall a, keep a = false -> g a = []) ->
  flat_map g (filter keep l) = flat_map g l.
Proof.
  intros Hg. induction l as [|a l IH]; simpl; [reflexivity|].
  destruct (keep a) eqn:Ha; simpl; rewrite IH; [reflexivity|].
  now rewrite (Hg a Ha).
Qed.

Lemma flat_map_agree {A B} (f g : A -> list B) l :
  (forall a, In a l -> f a = g a) -> flat_map f l = flat_map g l.
Proof.
  induction l as [|a l IH]; simpl; intros H; [reflexivity|].
  rewrite (H a) by now left. rewrite IH; [reflexivity|].
  intros b Hb. apply H. now right.
Qed.

(** X19. The generic parameters of an entity loaded, without a mark, from a
    document whose [fieldsLocal] has distinct keys, none an array index,
    are those that the entries of [fieldsLocal] introduce, in the order of
    the document, and the fields of the entity are in that order too. *)
Theorem loaded_getGenericLocal :
  forall (d : EntityDoc) (E : Entity) fl,
    Entity_load (Some d) = Ret (Some E) ->
    de_fieldsLocal d = Some fl ->
    NoDup (keys fl) ->
    (forall k, In k (keys fl) -> array_index k = None) ->
    getGenericLocal E = flat_map (generic_of_entry fl) (keys fl)
    /\ keys (fieldsLocal E) = filter (keeps Field_load fl) (keys fl).
Proof.
  intros d E fl HE Hfl Hnd Hplain.
  destruct (@Entity_load_inv d E HE) as (fl' & gm & Hfl' & _ & Hfields & _).
  assert (fl' = fl) by congruence. subst fl'.
  assert (Hkeys : keys (fieldsLocal E) = filter (keeps Field_load fl) (keys fl)).
  { apply (@load_loop_keys _ _ Field_load fl (keys fl) [] _ Hnd
             (fun _ _ H => H) Hplain Hfields). }
  assert (HndE : NoDup (keys (fieldsLocal E)))
    by (rewrite Hkeys; now apply NoDup_filter).
  destruct (@load_each_clean _ _ _ _ _ Hfields) as (_ & Hget).
  split; [|exact Hkeys].
  rewrite (getGenericLocal_names E HndE).
  rewrite (local_names_by_keys (fieldsLocal E) (fieldsLocal E))
    by (intros k v; now apply In_get).
  rewrite Hkeys.
  rewrite flat_map_filter.
  - apply flat_map_agree. intros k Hk.
    rewrite (Hget k). unfold generic_of_entry.
    assert (Hkey : is_key fl k = true).
    { unfold is_key. apply existsb_exists. exists k.
      split; [exact Hk|apply String.eqb_refl]. }
    rewrite Hkey.
    now destruct (Field_load (entry fl k)) as [[f|]|msg|[f|]].
  - intros k Hk. rewrite (Hget k).
    unfold keeps in Hk.
    destruct (is_key fl k); [|reflexivity].
    now destruct (Field_load (entry fl k)) as [[f|]|msg|[f|]].
Qed.

Lemma loaded_getGenericLocal_witness :
  keys [("id", field_of TID);
        ("since", mkField "" None None true false None TDateTime)]
  = filter
      (keeps Field_load
         [("id", Some (doc_field "TID" (Some false)));
          ("broken", Some (doc_field "TString" None));
          ("since", Some (doc_field "TDateTime" (Some true)))])
      ["id"; "broken"; "since"].
Proof.
  assert (Hnd : NoDup ["id"; "broken"; "since"])
    by (repeat constructor; simpl; intuition discriminate).
  assert (Hplain : forall k, In k ["id"; "broken"; "since"] ->
                             array_index k = None)
    by (simpl; intros k [<-|[<-|[<-|[]]]]; reflexivity).
  apply (proj2 (@loaded_getGenericLocal doc_three_fields _ _
                  eq_refl eq_refl Hnd Hplain)).
Defined.

Lemma Entity_load_paths d E :
  returns (Entity_load (Some d)) (Some E) ->
  parent E
  = match de_parent d with
    | Some pd => Some (mkElementPath (dp_module pd) (dp_name pd))
    | None => None
    end
  /\ response E
     = match de_response d with
       | Some pd => Some (mkElementPath (dp_module pd) (dp_name pd))
       | None => None
       end.
Proof.
  unfold Entity_load. simpl.
  destruct (de_type d), (de_isAbstract d), (de_fieldsLocal d) as [fl|],
    (de_genericMap d) as [gm|]; simpl;
    try (intros H; apply returns_Ret in H; discriminate).
  assert (Hp : forall x,
             load_path_if_present x
             = Ret match x with
                   | Some pd => Some (mkElementPath (dp_module pd) (dp_name pd))
                   | None => None
                   end).
  { intros [x|]; unfold load_path_if_present; simpl; [|reflexivity].
    now destruct (dp_module x), (dp_name x). }
  rewrite !Hp. simpl.
  intros H. apply bind_returns_inv in H. destruct H as (o & _ & H).
  apply bind_returns_inv in H. destruct H as (o' & _ & H).
  apply returns_Ret in H. injection H as <-. simpl. split; reflexivity.
Qed.

(** X20. A loaded entity has a parent (a response) exactly when the document
    has one, with the coordinates of the document.  When the document has no
    parent, or a parent without [module] or without [name], the entity is a
    root in every project: its parent does not resolve, the ancestor walk
    visits it alone, and [getGenericUnsolved] of an entity loaded without
    a mark returns its local generics without the names that
    [genericMap[o]] finds, the keys of its [genericMap] and the names of
    the members of [Object.prototype]. *)
Theorem loaded_entity_root :
  forall (d : EntityDoc) (E : Entity),
    returns (Entity_load (Some d)) (Some E) ->
    parent E
    = match de_parent d with
      | Some pd => Some (mkElementPath (dp_module pd) (dp_name pd))
      | None => None
      end
    /\ response E
       = match de_response d with
         | Some pd => Some (mkElementPath (dp_module pd) (dp_name pd))
         | None => None
         end
    /\ (match de_parent d with
        | Some pd => dp_module pd = None \/ dp_name pd = None
        | None => True
        end ->
        forall (P : Project) fuel,
          is_root P E
          /\ parentEntity E (Some P) = Ret None
          /\ fromAncestorToMe fuel E P (fun e visited => visited ++ [e]) []
             = Some (Ret [E])
          /\ (Entity_load (Some d) = Ret (Some E) ->
              getGenericUnsolved fuel E (Some P)
              = Some (Ret (filter (unsolved_here E) (getGenericLocal E)))
              /\ forall o,
                   In o (filter (unsolved_here E) (getGenericLocal E))
                   <-> In o (getGenericLocal E)
                       /\ ~ In o (keys (genericMap E))
                       /\ ~ In o object_prototype)).
Proof.
  intros d E HE.
  destruct (@Entity_load_paths d E HE) as (Hparent & Hresponse).
  split; [exact Hparent|]. split; [exact Hresponse|].
  intros Hroot P fuel.
  assert (Hr : is_root P E).
  { unfold is_root. rewrite Hparent.
    destruct (de_parent d) as [pd|]; [|now left].
    right. eexists. split; [reflexivity|]. unfold dangling. simpl.
    destruct Hroot as [-> | ->]; tauto. }
  assert (Hp : parentEntity E (Some P) = Ret None).
  { unfold parentEntity. rewrite Hparent.
    destruct (de_parent d) as [pd|]; [|reflexivity].
    unfold asEntityOf. simpl. destruct Hroot as [-> | ->]; [reflexivity|].
    now destruct (dp_module pd). }
  split; [exact Hr|]. split; [exact Hp|].
  split; [destruct fuel; simpl; rewrite Hp; reflexivity|].
  intros _. split; [destruct fuel; simpl; rewrite Hp; reflexivity|].
  intros o. rewrite filter_In, unsolved_here_is_key, andb_true_iff,
              !negb_true_iff.
  rewrite not_inherited_In.
  assert (Hk : is_key (genericMap E) o = false
               <-> ~ In o (keys (genericMap E))).
  { rewrite <- is_key_In. destruct (is_key (genericMap E) o);
      split; congruence. }
  rewrite Hk. tauto.
Qed.

Lemma loaded_entity_root_witness :
  exists E, Entity_load (Some doc_three_fields) = Ret (Some E)
            /\ parentEntity E (Some family) = Ret None.
Proof.
  eexists. split; [reflexivity|].
  apply (proj2 (proj2 (@loaded_entity_root doc_three_fields _
                         (or_introl eq_refl)))
           I family 0).
Defined.
